(** * vrdpkg: a shallow embedding of the path confiner, the host API,
    the archive extractor and the build lifecycle, with their properties.

    Sources: src/src/path_utils.rs, src/src/file_operations.rs,
    src/src/lua_functions.rs, src/src/main.rs.  Paths are Unix byte strings
    (Stdlib [string]); [std::path] and the [path_clean] crate are modelled
    from their Unix behaviour. *)

From Stdlib Require Import String Ascii List Bool ZArith Lia PrimFloat.
Import ListNotations.
Open Scope string_scope.
Open Scope list_scope.

(** ** A result type, as Rust's [Result<T, E>] *)
Inductive result (T E : Type) : Type :=
| Ok (v : T)
| Err (e : E).
Arguments Ok {T E} v.
Arguments Err {T E} e.

(** * std::path on Unix *)
Module RPath.

Definition sep : ascii := "/"%char.

(** Splitting the byte string at every separator ([Components] parses
    exactly these segments). *)
Fixpoint split (s : string) : list string :=
  match s with
  | EmptyString => [EmptyString]
  | String c s' =>
      if Ascii.eqb c sep then EmptyString :: split s'
      else match split s' with
           | seg :: rest => String c seg :: rest
           | [] => [String c EmptyString]
           end
  end.

(** [std::path::Component] (no [Prefix]: Unix). *)
Inductive component : Type :=
| RootDir
| CurDir
| ParentDir
| Normal (name : string).

Definition component_eq_dec (a b : component) : {a = b} + {a <> b}.
Proof. decide equality; apply string_dec. Defined.

Definition component_eqb (a b : component) : bool :=
  if component_eq_dec a b then true else false.

(** A segment after the first: empty segments and [.] are skipped. *)
Definition classify (seg : string) : option component :=
  if String.eqb seg "" then None
  else if String.eqb seg "." then None
  else if String.eqb seg ".." then Some ParentDir
  else Some (Normal seg).

Fixpoint body (segs : list string) : list component :=
  match segs with
  | [] => []
  | seg :: r =>
      match classify seg with
      | Some c => c :: body r
      | None => body r
      end
  end.

(** [Path::components]: a leading separator gives [RootDir]; a leading
    [.] segment of a relative path gives [CurDir]. *)
Definition components (s : string) : list component :=
  match s with
  | EmptyString => []
  | String c s' =>
      if Ascii.eqb c sep then RootDir :: body (split s')
      else match split s with
           | first :: rest =>
               if String.eqb first "." then CurDir :: body rest
               else body (first :: rest)
           | [] => []
           end
  end.

(** [Path::is_absolute] on Unix: [has_root]. *)
Definition is_absolute (s : string) : bool :=
  match s with
  | String c _ => Ascii.eqb c sep
  | EmptyString => false
  end.

Fixpoint ends_with_sep (s : string) : bool :=
  match s with
  | EmptyString => false
  | String c EmptyString => Ascii.eqb c sep
  | String _ s' => ends_with_sep s'
  end.

(** [PathBuf::push] (hence [Path::join]): an absolute argument replaces
    the buffer; otherwise a separator is inserted when the buffer is
    non-empty and does not end in one. *)
Definition push (buf p : string) : string :=
  if is_absolute p then p
  else if negb (String.eqb buf "") && negb (ends_with_sep buf)
       then buf ++ String sep p
       else buf ++ p.

Definition join (base p : string) : string := push base p.

Definition comp_str (c : component) : string :=
  match c with
  | RootDir => "/"
  | CurDir => "."
  | ParentDir => ".."
  | Normal n => n
  end.

(** Collecting components into a [PathBuf] ([FromIterator]): one [push]
    per component. *)
Definition render (cs : list component) : string :=
  fold_left (fun buf c => push buf (comp_str c)) cs "".

(** The private [iter_after] of std::path. *)
Fixpoint iter_after (xs prefix : list component) : option (list component) :=
  match prefix, xs with
  | [], _ => Some xs
  | y :: prefix', x :: xs' =>
      if component_eqb x y then iter_after xs' prefix' else None
  | _ :: _, [] => None
  end.

Definition starts_with (p base : string) : bool :=
  match iter_after (components p) (components base) with
  | Some _ => true
  | None => false
  end.

(** [Path::strip_prefix]; the remainder is returned as the path of the
    remaining components (Rust returns a slice of the original string with
    the same components). *)
Definition strip_prefix (p base : string) : option string :=
  match iter_after (components p) (components base) with
  | Some rest => Some (render rest)
  | None => None
  end.

(** [PartialEq for Path]: equality of the component sequences. *)
Definition path_eqb (a b : string) : bool :=
  if list_eq_dec component_eq_dec (components a) (components b)
  then true else false.

(** [Path::parent]. *)
Definition parent (p : string) : option string :=
  match rev (components p) with
  | (Normal _ | CurDir | ParentDir) :: rrest => Some (render (rev rrest))
  | _ => None
  end.

End RPath.

(** * path_clean::clean (crate path-clean 1.x) *)
Module PathClean.
Import RPath.

(** One iteration of the loop over [path.components()]; [out] is the
    [Vec] with its last element first. *)
Definition clean_step (out : list component) (comp : component)
  : list component :=
  match comp with
  | CurDir => out
  | ParentDir =>
      match out with
      | RootDir :: _ => out
      | Normal _ :: out' => out'
      | _ => ParentDir :: out
      end
  | c => c :: out
  end.

Definition clean (p : string) : string :=
  match rev (fold_left clean_step (components p) []) with
  | [] => "."
  | out => render out
  end.

End PathClean.

(** * src/src/path_utils.rs *)
Module PathUtils.
Import RPath PathClean.

Inductive path_error : Type :=
| PathTraversal
| NotInTargetDir
| InvalidPath (msg : string).

(** The [Display] strings of [PathError] (thiserror attributes). *)
Definition path_error_display (e : path_error) : string :=
  match e with
  | PathTraversal => "Path traversal attack detected"
  | NotInTargetDir => "Path not contained in target directory"
  | InvalidPath m => "Invalid path: " ++ m
  end.

Definition is_parent_dir (c : component) : bool :=
  match c with ParentDir => true | _ => false end.

(** [sanitize_path] (path_utils.rs, lines 16-41). *)
Definition sanitize_path (base_dir relative_path : string)
  : result string path_error :=
  let rel_path := clean relative_path in
  if existsb is_parent_dir (components rel_path) then Err PathTraversal
  else
    let rel_path :=
      match strip_prefix rel_path "/" with
      | Some stripped => stripped
      | None => rel_path
      end in
    let abs_path := join base_dir rel_path in
    if negb (starts_with abs_path base_dir) then Err NotInTargetDir
    else Ok abs_path.

End PathUtils.

(** ** Shapes of cleaned relative paths *)
Module PathShapes.
Import RPath.

Fixpoint has_sep (s : string) : bool :=
  match s with
  | EmptyString => false
  | String c s' => Ascii.eqb c sep || has_sep s'
  end.

(** A [Normal] component's text: non-empty, not [.] or [..], no separator. *)
Definition good_name (n : string) : Prop :=
  n <> "" /\ n <> "." /\ n <> ".." /\ has_sep n = false.

Fixpoint concat_pre (segs : list string) : string :=
  match segs with
  | [] => ""
  | s :: r => String sep (s ++ concat_pre r)
  end.

(** A segment of a cleaned relative path: a name or [..]. *)
Definition good_seg (n : string) : Prop :=
  n <> "" /\ n <> "." /\ has_sep n = false.

Definition seg_comp (n : string) : component :=
  if String.eqb n ".." then ParentDir else Normal n.

(** A component after the optional leading [RootDir] or [CurDir]. *)
Definition seg_like (c : component) : Prop :=
  c = ParentDir \/ exists n, c = Normal n /\ good_name n.

(** The [out] stack of [clean]: names above either the root or a run of
    [..] that could not be resolved. *)
Definition clean_inv (out : list component) : Prop :=
  exists (rooted : bool) (k : nat) (rns : list string),
    Forall good_name rns /\
    out = map Normal rns ++ (if rooted then [RootDir] else repeat ParentDir k).

(** Segments joined by single separators. *)
Definition join_segs (segs : list string) : string :=
  match segs with
  | [] => ""
  | s :: r => s ++ concat_pre r
  end.

End PathShapes.

(** * The Lua values seen by the host (mlua) *)
Module LuaModel.

(** A Lua value as far as the host reads it: tables have string-keyed
    fields and a sequence part [t[1], t[2], ...]; a number carries the text
    Lua converts it to; a function is a reference to recipe code. *)
#[warnings="-register-all"]
Inductive lua_value : Type :=
| LNil
| LBool (b : bool)
| LNum (repr : string)
| LStr (s : string)
| LTable (fields : list (string * lua_value)) (seq : list lua_value)
| LFunc (id : nat).

Definition globals := list (string * lua_value).

(** Raw [t[key]]: the first binding, [nil] when absent. *)
Fixpoint assoc_get (fs : list (string * lua_value)) (k : string) : lua_value :=
  match fs with
  | [] => LNil
  | (k', v) :: r => if String.eqb k k' then v else assoc_get r k
  end.

(** [FromLua] conversions of mlua. *)
Definition from_lua_string (v : lua_value) : option string :=
  match v with
  | LStr s => Some s
  | LNum r => Some r
  | _ => None
  end.

Definition from_lua_bool (v : lua_value) : bool :=
  match v with
  | LNil => false
  | LBool b => b
  | _ => true
  end.

Definition from_lua_table (v : lua_value)
  : option (list (string * lua_value) * list lua_value) :=
  match v with
  | LTable f s => Some (f, s)
  | _ => None
  end.

Definition from_lua_function (v : lua_value) : option nat :=
  match v with
  | LFunc id => Some id
  | _ => None
  end.

(** [Value: FromLua] accepts every value, [nil] included. *)
Definition from_lua_value (v : lua_value) : option lua_value := Some v.

(** [Option<String>: FromLua]: [nil] is [None]. *)
Definition from_lua_opt_string (v : lua_value) : option (option string) :=
  match v with
  | LNil => Some None
  | _ => option_map Some (from_lua_string v)
  end.

Definition from_lua_unit (_ : lua_value) : option unit := Some tt.

(** [Table::sequence_values]: [t[1], t[2], ...] up to the first [nil]. *)
Fixpoint seq_until_nil (l : list lua_value) : list lua_value :=
  match l with
  | [] => []
  | LNil :: _ => []
  | v :: r => v :: seq_until_nil r
  end.

(** [sequence_values::<String>().map(|v| v.unwrap_or_default())]. *)
Definition seq_strings (l : list lua_value) : list string :=
  map (fun v => match from_lua_string v with Some s => s | None => "" end)
      (seq_until_nil l).

End LuaModel.

(** * src/src/main.rs: metadata and the build lifecycle *)
Module Lifecycle.
Import LuaModel.

Definition bind_r {A B E : Type} (r : result A E) (f : A -> result B E)
  : result B E :=
  match r with
  | Ok a => f a
  | Err e => Err e
  end.

Notation "'let?' x ':=' r 'in' k" := (bind_r r (fun x => k))
  (at level 200, x name, r at level 100, k at level 200).

Definition is_some {A : Type} (o : option A) : bool :=
  match o with Some _ => true | None => false end.

Definition is_none {A : Type} (o : option A) : bool := negb (is_some o).

Definition ok_or {A : Type} (o : option A) (msg : string) : result A string :=
  match o with
  | Some a => Ok a
  | None => Err msg
  end.

Record package_info : Type := {
  name : string;
  description : string;
  version : option string;
  license : string;
  dev : bool;
  dependencies : list string;
  build_dependencies : list string;
  optional_dependencies : list string;
  conflicts : list string;
  provides : list string;
  replaces : list string;
  arch : list string;
  url : string;
  maintainers : list string
}.

(** An optional array field: empty when absent or not a table. *)
Definition optional_list (t : list (string * lua_value)) (key : string)
  : list string :=
  match from_lua_table (assoc_get t key) with
  | Some (_, sq) => seq_strings sq
  | None => []
  end.

(** [lua_get_package_info] (main.rs, lines 63-163); errors are the
    [RuntimeError] messages. *)
Definition lua_get_package_info (g : globals) : result package_info string :=
  let? info_table := ok_or (from_lua_table (assoc_get g "INFO"))
                           "INFO table missing" in
  let t := fst info_table in
  let? name := ok_or (from_lua_string (assoc_get t "name"))
                     "name field missing" in
  let? description := ok_or (from_lua_string (assoc_get t "description"))
                            "description field missing" in
  let? url := ok_or (from_lua_string (assoc_get t "url"))
                    "url field missing" in
  let? license := ok_or (from_lua_string (assoc_get t "license"))
                        "license field missing" in
  let dev := from_lua_bool (assoc_get t "dev") in
  let? provides_table := ok_or (from_lua_table (assoc_get t "provides"))
                               "provides field missing" in
  let? arch_table := ok_or (from_lua_table (assoc_get t "arch"))
                           "arch field missing" in
  let version := from_lua_string (assoc_get t "version") in
  let? maintainers_table := ok_or (from_lua_table (assoc_get t "maintainers"))
                                  "maintainers field missing" in
  Ok {| name := name;
        description := description;
        version := version;
        license := license;
        dev := dev;
        dependencies := optional_list t "dependencies";
        build_dependencies := optional_list t "build_dependencies";
        optional_dependencies := optional_list t "optional_dependencies";
        conflicts := optional_list t "conflicts";
        provides := seq_strings (snd provides_table);
        replaces := optional_list t "replaces";
        arch := seq_strings (snd arch_table);
        url := url;
        maintainers := seq_strings (snd maintainers_table) |}.

(** A recipe: the globals its body leaves behind ([None]: the chunk raised
    an error), and the behaviour of its functions: a call returns the first
    result and the globals after it, or [None] when it raises. *)
Record recipe : Type := {
  exec_chunk : option globals;
  call_fn : nat -> globals -> option (lua_value * globals)
}.

Inductive stage : Type :=
| Load | ValidateMetadata | FetchSources | ResolveVersion
| ArchitectureGate | Prepare | Package | Finalize.

Definition stage_index (s : stage) : nat :=
  match s with
  | Load => 0 | ValidateMetadata => 1 | FetchSources => 2
  | ResolveVersion => 3 | ArchitectureGate => 4 | Prepare => 5
  | Package => 6 | Finalize => 7
  end.

(** How the process ends: an exit status at some stage ([process::exit(1)],
    or 101 for a Rust panic from [unwrap]), or reaching the manifest,
    metadata and archive steps. *)
Inductive outcome : Type :=
| Exited (code : Z) (at_stage : stage)
| ReachedFinalize.

(** [run_function] (main.rs, lines 338-355): the error carries whether the
    function was found and called; both failures are [process::exit(1)]. *)
Definition run_function {R : Type} (conv : lua_value -> option R)
  (r : recipe) (g : globals) (function_name : string)
  : result (R * globals) bool :=
  match from_lua_function (assoc_get g function_name) with
  | None => Err false
  | Some f =>
      match r.(call_fn) f g with
      | None => Err true
      | Some (v, g') =>
          match conv v with
          | Some x => Ok (x, g')
          | None => Err true
          end
      end
  end.

Definition called (inv : bool) (fname : string) : list string :=
  if inv then [fname] else [].

(** [main] from the recipe evaluation to the packaging callback
    (main.rs, lines 222-261), with the host architecture [host]; the list
    records the callbacks the orchestrator invoked, in order. *)
Definition main_lifecycle (host : string) (r : recipe)
  : outcome * list string :=
  match r.(exec_chunk) with
  | None => (Exited 101 Load, [])
  | Some g =>
    match lua_get_package_info g with
    | Err _ => (Exited 101 ValidateMetadata, [])
    | Ok info =>
      let version_function_exists :=
        match from_lua_value (assoc_get g "VERSION") with
        | Some _ => true
        | None => false
        end in
      if is_none info.(version) && negb version_function_exists
      then (Exited 1 ValidateMetadata, [])
      else if is_some info.(version) && version_function_exists
      then (Exited 1 ValidateMetadata, [])
      else
      match run_function from_lua_unit r g "SOURCES" with
      | Err inv => (Exited 1 FetchSources, called inv "SOURCES")
      | Ok (_, g1) =>
        let vres :=
          if is_none info.(version) then
            match run_function from_lua_opt_string r g1 "VERSION" with
            | Err inv => Err inv
            | Ok (v, g2) => Ok (v, g2, true)
            end
          else Ok (info.(version), g1, false) in
        match vres with
        | Err inv => (Exited 1 ResolveVersion, ["SOURCES"] ++ called inv "VERSION")
        | Ok (ver, g2, ran) =>
          let tr := ["SOURCES"] ++ called ran "VERSION" in
          match ver with
          | None => (Exited 101 ResolveVersion, tr)
          | Some _ =>
            if negb (existsb (String.eqb host) info.(arch))
            then (Exited 1 ArchitectureGate, tr)
            else
            match run_function from_lua_unit r g2 "PREPARE" with
            | Err inv => (Exited 1 Prepare, tr ++ called inv "PREPARE")
            | Ok (_, g3) =>
              match run_function from_lua_unit r g3 "PACKAGE" with
              | Err inv => (Exited 1 Package, tr ++ ["PREPARE"] ++ called inv "PACKAGE")
              | Ok _ => (ReachedFinalize, tr ++ ["PREPARE"; "PACKAGE"])
              end
            end
          end
        end
      end
    end
  end.

End Lifecycle.

(** * The filesystem as the host sees it (Unix) *)
Module FsModel.
Import RPath.

(** [std::io::ErrorKind]s that the operations below can raise. *)
Inductive io_error : Type :=
| NotFound
| AlreadyExists
| NotADirectory
| IsADirectory
| FilesystemLoop
| Other (msg : string).

Definition io_error_display (e : io_error) : string :=
  match e with
  | NotFound => "No such file or directory (os error 2)"
  | AlreadyExists => "File exists (os error 17)"
  | NotADirectory => "Not a directory (os error 20)"
  | IsADirectory => "Is a directory (os error 21)"
  | FilesystemLoop => "Too many levels of symbolic links (os error 40)"
  | Other m => m
  end.

Inductive node : Type :=
| NDir
| NFile (data : string)
| NLink (target : string).

(** Inodes by physical absolute path (the names below [/]); the list
    order is the directory iteration order. *)
Definition fs := list (list string * node).

Definition names_eqb (a b : list string) : bool :=
  if list_eq_dec string_dec a b then true else false.

Fixpoint lookup (f : fs) (k : list string) : option node :=
  match f with
  | [] => None
  | (k', v) :: r => if names_eqb k k' then Some v else lookup r k
  end.

(** The root directory always exists. *)
Definition node_at (f : fs) (k : list string) : option node :=
  match k with
  | [] => Some NDir
  | _ => lookup f k
  end.

Fixpoint set_node (f : fs) (k : list string) (v : node) : fs :=
  match f with
  | [] => [(k, v)]
  | (k', v') :: r =>
      if names_eqb k k' then (k', v) :: r else (k', v') :: set_node r k v
  end.

(** The names of a path's components, [..] taken lexically. *)
Fixpoint names_of (cs : list component) (acc : list string) : list string :=
  match cs with
  | [] => acc
  | Normal n :: r => names_of r (acc ++ [n])
  | ParentDir :: r => names_of r (removelast acc)
  | RootDir :: r => names_of r []
  | CurDir :: r => names_of r acc
  end.

(** Every path handed to the filesystem here is absolute (the base
    directories are canonicalised by [main]). *)
Definition path_names (p : string) : option (list string) :=
  match components p with
  | RootDir :: rest => Some (names_of rest [])
  | _ => None
  end.

(** Where resolution of a symlink target starts. *)
Definition link_start (cur : list string) (t : string) : list string :=
  if is_absolute t then names_of (components t) []
  else names_of (components t) cur.

(** Path resolution, following symlinks in every component; at most 40
    nested link expansions ([ELOOP] past that, as Linux's limit). The
    result is the physical path, whether or not it exists. *)
Fixpoint resolve_from (fuel : nat) (f : fs) (cur rest : list string)
  {struct fuel} : option (list string) :=
  (fix go (cur rest : list string) : option (list string) :=
     match rest with
     | [] => Some cur
     | n :: rest' =>
         let p := cur ++ [n] in
         match lookup f p with
         | Some (NLink t) =>
             match fuel with
             | 0 => None
             | S k =>
                 match resolve_from k f [] (link_start cur t) with
                 | Some r => resolve_from k f r rest'
                 | None => None
                 end
             end
         | _ => go p rest'
         end
     end) cur rest.

Definition resolve (f : fs) (ns : list string) : option (list string) :=
  resolve_from 40 f [] ns.

(** [fs::metadata] (follows links). *)
Definition metadata (f : fs) (p : string) : option node :=
  match path_names p with
  | None => None
  | Some ns =>
      match resolve f ns with
      | Some r => node_at f r
      | None => None
      end
  end.

(** [fs::symlink_metadata] (does not follow the last component). *)
Definition symlink_metadata (f : fs) (p : string) : option node :=
  match path_names p with
  | None => None
  | Some ns =>
      match rev ns with
      | [] => Some NDir
      | n :: rparent =>
          match resolve f (rev rparent) with
          | Some r => node_at f (r ++ [n])
          | None => None
          end
      end
  end.

(** [Path::is_file], [is_dir], [is_symlink], [exists]: [false] on any
    error. *)
Definition is_file (f : fs) (p : string) : bool :=
  match metadata f p with Some (NFile _) => true | _ => false end.

Definition is_dir (f : fs) (p : string) : bool :=
  match metadata f p with Some NDir => true | _ => false end.

Definition is_symlink (f : fs) (p : string) : bool :=
  match symlink_metadata f p with Some (NLink _) => true | _ => false end.

Definition path_exists (f : fs) (p : string) : bool :=
  match metadata f p with Some _ => true | None => false end.

Fixpoint strip_names (pre k : list string) : option (list string) :=
  match pre, k with
  | [], _ => Some k
  | x :: pre', y :: k' => if String.eqb x y then strip_names pre' k' else None
  | _ :: _, [] => None
  end.

Definition child_name (dir k : list string) : option string :=
  match strip_names dir k with
  | Some [n] => Some n
  | _ => None
  end.

(** [fs::read_dir]: the entries' paths ([dir.join(file_name)]), in the
    directory's iteration order. *)
Definition read_dir (f : fs) (p : string) : result (list string) io_error :=
  match path_names p with
  | None => Err NotFound
  | Some ns =>
      match resolve f ns with
      | None => Err FilesystemLoop
      | Some r =>
          match node_at f r with
          | Some NDir =>
              Ok (flat_map (fun '(k, _) =>
                    match child_name r k with
                    | Some n => [join p n]
                    | None => []
                    end) f)
          | Some _ => Err NotADirectory
          | None => Err NotFound
          end
      end
  end.

(** [fs::create_dir_all]: each missing ancestor is created in turn. *)
Fixpoint mkdirs (f : fs) (cur rest : list string) : result fs io_error :=
  match rest with
  | [] => Ok f
  | n :: rest' =>
      let pre := cur ++ [n] in
      match resolve f pre with
      | None => Err FilesystemLoop
      | Some r =>
          match node_at f r with
          | Some NDir => mkdirs f r rest'
          | Some _ =>
              match rest' with [] => Err AlreadyExists | _ => Err NotADirectory end
          | None =>
              match lookup f pre with
              | Some (NLink _) => Err AlreadyExists
              | _ => mkdirs (set_node f r NDir) r rest'
              end
          end
      end
  end.

Definition create_dir_all (f : fs) (p : string) : result fs io_error :=
  match path_names p with
  | None => Err NotFound
  | Some ns => mkdirs f [] ns
  end.

(** [File::create] followed by writing [data] ([fs::write]): the parent
    directory must exist. *)
Definition write_file (f : fs) (p : string) (data : string)
  : result fs io_error :=
  match path_names p with
  | None => Err NotFound
  | Some ns =>
      match resolve f ns with
      | None => Err FilesystemLoop
      | Some rt =>
          match node_at f (removelast rt) with
          | Some NDir =>
              match node_at f rt with
              | Some NDir => Err IsADirectory
              | _ => Ok (set_node f rt (NFile data))
              end
          | Some _ => Err NotADirectory
          | None => Err NotFound
          end
      end
  end.

(** [fs::read_to_string]. *)
Definition read_file (f : fs) (p : string) : result string io_error :=
  match metadata f p with
  | Some (NFile d) => Ok d
  | Some NDir => Err IsADirectory
  | Some (NLink _) => Err FilesystemLoop
  | None => Err NotFound
  end.

(** [std::os::unix::fs::symlink(target, link)]. *)
Definition symlink (f : fs) (target link : string) : result fs io_error :=
  match path_names link with
  | None => Err NotFound
  | Some ns =>
      match rev ns with
      | [] => Err AlreadyExists
      | n :: rparent =>
          match resolve f (rev rparent) with
          | None => Err FilesystemLoop
          | Some rp =>
              match node_at f rp with
              | Some NDir =>
                  match lookup f (rp ++ [n]) with
                  | Some _ => Err AlreadyExists
                  | None => Ok (set_node f (rp ++ [n]) (NLink target))
                  end
              | Some _ => Err NotADirectory
              | None => Err NotFound
              end
          end
      end
  end.

End FsModel.

(** * src/src/lua_functions.rs and file_operations.rs: the host API *)
Module HostApi.
Import RPath PathUtils FsModel.

(** [mlua::Error] as raised by the callbacks. [Lua::new()] sets
    [catch_rust_panics], so a Rust panic inside a callback is caught by
    mlua and raised in Lua as an error ([CallbackPanic], with the panic
    message) like the others. *)
Inductive lua_error : Type :=
| RuntimeError (msg : string)
| ExternalError (msg : string)
| CallbackPanic (msg : string).

(** The outcome of one Lua call into a host function: a value, or an
    error the recipe sees (and may catch with [pcall]). *)
Inductive call_result (A : Type) : Type :=
| CallOk (a : A)
| CallErr (e : lua_error).
Arguments CallOk {A} a.
Arguments CallErr {A} e.

Definition dq : string := String "034"%char EmptyString.
Definition nl : string := String "010"%char EmptyString.

(** [#[derive(Debug)]] of [PathError]. *)
Definition path_error_debug (e : path_error) : string :=
  match e with
  | PathTraversal => "PathTraversal"
  | NotInTargetDir => "NotInTargetDir"
  | InvalidPath m => "InvalidPath(" ++ dq ++ m ++ dq ++ ")"
  end.

Definition unwrap_panic (dbg : string) : string :=
  "called `Result::unwrap()` on an `Err` value: " ++ dbg.

Definition path_err {A} (e : path_error) : call_result A :=
  CallErr (RuntimeError ("Path error: " ++ path_error_display e)).

Definition io_err {A} (e : io_error) : call_result A :=
  CallErr (ExternalError (io_error_display e)).

(** [validate_absolute_path] (path_utils.rs). *)
Definition validate_absolute_path (f : fs) (p : string)
  : result string path_error :=
  if negb (is_absolute p) then Err (InvalidPath "Path must be absolute")
  else if negb (path_exists f p) then
    Err (InvalidPath ("Path does not exist: " ++ dq ++ p ++ dq))
  else Ok p.

(** [if let Some(parent) = abs.parent() { fs::create_dir_all(parent)? }] *)
Definition create_parent (f : fs) (abs : string) : result fs io_error :=
  match parent abs with
  | Some par => create_dir_all f par
  | None => Ok f
  end.

(** The same, guarded by [if !parent.exists()] (copy, git.clone). *)
Definition create_parent_if_missing (f : fs) (abs : string)
  : result fs io_error :=
  match parent abs with
  | Some par => if path_exists f par then Ok f else create_dir_all f par
  | None => Ok f
  end.

(** [file_load(path)]. *)
Definition file_load (f : fs) (src_dir path : string) : call_result string :=
  match sanitize_path src_dir path with
  | Ok abs_path =>
      match read_file f abs_path with
      | Ok s => CallOk s
      | Err e => io_err e
      end
  | Err e => path_err e
  end.

(** [file_save(path, content)]. *)
Definition file_save (f : fs) (src_dir path content : string)
  : call_result unit * fs :=
  match sanitize_path src_dir path with
  | Ok abs_path =>
      match create_parent f abs_path with
      | Err e => (io_err e, f)
      | Ok f1 =>
          match write_file f1 abs_path content with
          | Ok f2 => (CallOk tt, f2)
          | Err e => (io_err e, f1)
          end
      end
  | Err e => (path_err e, f)
  end.

(** The [Box<dyn Error>] of [download_file_blocking]. *)
Inductive download_error : Type :=
| DlIo (e : io_error)
| DlPath (e : path_error)
| DlHttp (msg : string).

Definition download_error_display (e : download_error) : string :=
  match e with
  | DlIo e => io_error_display e
  | DlPath e => path_error_display e
  | DlHttp m => m
  end.

Section Download.
(** [reqwest::blocking::get(url)]: the response body, or the request's
    error. A body whose transfer fails part way is not modelled. *)
Variable fetch : string -> result string string.

(** [download_file_blocking] (file_operations.rs, lines 134-152). *)
Definition download_file_blocking (f : fs) (url dest_dir filename : string)
  : result string download_error * fs :=
  match create_dir_all f dest_dir with
  | Err e => (Err (DlIo e), f)
  | Ok f1 =>
      match sanitize_path dest_dir filename with
      | Err e => (Err (DlPath e), f1)
      | Ok dest_path =>
          match fetch url with
          | Err m => (Err (DlHttp m), f1)
          | Ok body =>
              (* [File::create], then [response.copy_to] *)
              match write_file f1 dest_path EmptyString with
              | Err e => (Err (DlIo e), f1)
              | Ok f2 =>
                  match write_file f2 dest_path body with
                  | Err e => (Err (DlIo e), f2)
                  | Ok f3 => (Ok dest_path, f3)
                  end
              end
          end
      end
  end.

(** [download(url, dest)]. *)
Definition download (f : fs) (src_dir url dest : string)
  : call_result unit * fs :=
  match download_file_blocking f url src_dir dest with
  | (Ok _, f') => (CallOk tt, f')
  | (Err e, f') =>
      (CallErr (RuntimeError ("Download error: " ++ download_error_display e)), f')
  end.
End Download.

Section Git.
(** [git2::Repository::open] and [clone]: the work directory of the
    repository ([repo.path().parent()]), or libgit2's message. *)
Variable repo_open : string -> result string string.
Variable repo_clone : string -> string -> fs -> result (string * fs) string.

(** [git.load(repo)]: the [path] field of the returned table. *)
Definition git_load (src_dir repo : string) : call_result string :=
  match sanitize_path src_dir repo with
  | Err e => CallErr (CallbackPanic (unwrap_panic (path_error_debug e)))
  | Ok p =>
      match repo_open p with
      | Ok wd => CallOk wd
      | Err m => CallErr (RuntimeError m)
      end
  end.

(** [git.clone(src, dest)]; the [println!] at its start already unwraps
    the confined destination. *)
Definition git_clone (f : fs) (src_dir src : string) (dest : option string)
  : call_result string * fs :=
  let d := match dest with Some d => d | None => "." end in
  match sanitize_path src_dir d with
  | Err e => (CallErr (CallbackPanic (unwrap_panic (path_error_debug e))), f)
  | Ok p =>
      match create_parent_if_missing f p with
      | Err e => (CallErr (RuntimeError (io_error_display e)), f)
      | Ok f1 =>
          match repo_clone src p f1 with
          | Ok (wd, f2) => (CallOk wd, f2)
          | Err m => (CallErr (RuntimeError m), f1)
          end
      end
  end.
End Git.

(** [link(target, link_path)]. *)
Definition link (f : fs) (pkg_dir target link_path : string)
  : call_result unit * fs :=
  match validate_absolute_path f target with
  | Err e => (path_err e, f)
  | Ok abs_target =>
      match sanitize_path pkg_dir link_path with
      | Err e => (path_err e, f)
      | Ok abs_link =>
          match create_parent f abs_link with
          | Err e => (io_err e, f)
          | Ok f1 =>
              match symlink f1 abs_target abs_link with
              | Ok f2 => (CallOk tt, f2)
              | Err e => (io_err e, f1)
              end
          end
      end
  end.

(** [fs::copy]: the source is opened (through symlinks) and must be a
    regular file; the destination is then created or truncated, and only
    after that is the source read, so a destination that is the source
    itself ends up empty. *)
Definition fs_copy (f : fs) (src dst : string) : result fs io_error :=
  match metadata f src with
  | Some (NFile _) =>
      match write_file f dst EmptyString with
      | Err e => Err e
      | Ok f1 =>
          match metadata f1 src with
          | Some (NFile d) => write_file f1 dst d
          | _ => Ok f1
          end
      end
  | Some _ => Err (Other "the source path is neither a regular file nor a symlink to a regular file")
  | None => Err NotFound
  end.

Definition file_name (p : string) : string :=
  match rev (components p) with
  | Normal n :: _ => n
  | _ => EmptyString
  end.

(** [copy_dir_all] (file_operations.rs); [entry.file_type()] does not
    follow symlinks. Each level adds a component to [src], whose length
    [PATH_MAX] bounds, so [fuel] bounds the depth. *)
Fixpoint copy_dir_all (fuel : nat) (f : fs) (src dst : string)
  : result fs io_error :=
  match fuel with
  | 0 => Err (Other "File name too long (os error 36)")
  | S fuel' =>
      match create_dir_all f dst with
      | Err e => Err e
      | Ok f1 =>
          match read_dir f1 src with
          | Err e => Err e
          | Ok entries =>
              fold_left (fun acc e =>
                match acc with
                | Err _ => acc
                | Ok g =>
                    match symlink_metadata g e with
                    | Some NDir => copy_dir_all fuel' g e (join dst (file_name e))
                    | _ => fs_copy g e (join dst (file_name e))
                    end
                end) entries (Ok f1)
          end
      end
  end.

Definition path_max : nat := 4096.

(** [copy(src, dest)]. *)
Definition copy (f : fs) (src_dir pkg_dir src dest : string)
  : call_result unit * fs :=
  match sanitize_path src_dir src with
  | Err e => (path_err e, f)
  | Ok abs_src =>
      match sanitize_path pkg_dir dest with
      | Err e => (path_err e, f)
      | Ok abs_dest =>
          if is_file f abs_src then
            match create_parent_if_missing f abs_dest with
            | Err e => (io_err e, f)
            | Ok f1 =>
                match fs_copy f1 abs_src abs_dest with
                | Ok f2 => (CallOk tt, f2)
                | Err e => (io_err e, f1)
                end
            end
          else if is_dir f abs_src then
            match copy_dir_all path_max f abs_src abs_dest with
            | Ok f2 => (CallOk tt, f2)
            | Err e => (io_err e, f)
            end
          else
            (CallErr (RuntimeError ("Source path is neither a file nor directory: "
                                      ++ dq ++ abs_src ++ dq)), f)
      end
  end.

End HostApi.

(** * src/src/main.rs: the package manifest *)
Module Manifest.
Import RPath FsModel.

(** [visit_dirs] (main.rs, lines 300-321): [paths] is threaded through;
    recursion depth is bounded by [fuel] as in [copy_dir_all]. *)
Fixpoint visit_dirs (fuel : nat) (f : fs) (dir : string) (paths : list string)
  : result (list string) io_error :=
  match fuel with
  | 0 => Err (Other "File name too long (os error 36)")
  | S fuel' =>
      if is_dir f dir then
        match read_dir f dir with
        | Err e => Err e
        | Ok entries =>
            fold_left (fun acc path =>
              match acc with
              | Err _ => acc
              | Ok paths =>
                  let paths :=
                    if is_file f path || is_symlink f path then
                      let base_path := "pkg" in
                      match parent base_path with
                      | Some b =>
                          match strip_prefix path b with
                          | Some rel_path => paths ++ [rel_path]
                          | None => paths
                          end
                      | None => paths
                      end
                    else paths in
                  if is_dir f path then visit_dirs fuel' f path paths
                  else Ok paths
              end) entries (Ok paths)
        end
      else Ok paths
  end.

(** The contents written to [pkg/.pkgfiles] (main.rs, lines 264-267);
    [Err] carries the panic of an [unwrap]. *)
Definition pkgfiles (f : fs) (pkg_dir : string) : result string string :=
  match visit_dirs HostApi.path_max f pkg_dir [] with
  | Err e => Err (HostApi.unwrap_panic (io_error_display e))
  | Ok find_result =>
      let lines := map (fun file =>
        match strip_prefix file pkg_dir with
        | Some r => Some ("/" ++ r)%string
        | None => None
        end) find_result in
      if forallb (fun o => match o with Some _ => true | None => false end) lines
      then Ok (String.concat HostApi.nl
                 (map (fun o => match o with Some s => s | None => EmptyString end) lines))
      else Err "called `Result::unwrap()` on an `Err` value: StripPrefixError(())"
  end.

End Manifest.

(** * file_operations.rs: extract_tarball *)
Module Extract.
Import FsModel.

(** [str::ends_with]. *)
Definition ends_with (s suffix : string) : bool :=
  let n := String.length s in
  let m := String.length suffix in
  Nat.leb m n && String.eqb (substring (n - m) m s) suffix.

(** The reader an [Archive] is built on: the opened file, possibly
    wrapped in one decoder. *)
Inductive reader : Type :=
| RawFile (path : string)
| GzDecoder (r : reader)
| BzDecoder (r : reader)
| XzDecoder (r : reader)
| ZstdDecoder (r : reader).

Section Extraction.
(** [ZstdDecoder::new] (the only fallible constructor) and
    [Archive::new(r).unpack(dest)] of the tar crate. *)
Variable zstd_new : reader -> result reader io_error.
Variable unpack : reader -> string -> fs -> result fs io_error.

(** [fs::File::open]. *)
Definition file_open (f : fs) (p : string) : result reader io_error :=
  match metadata f p with
  | Some _ => Ok (RawFile p)
  | None => Err NotFound
  end.

(** [extract_tarball] (file_operations.rs, lines 12-44). *)
Definition extract_tarball (f : fs) (src_path dest_path : string)
  : result fs io_error :=
  match file_open f src_path with
  | Err e => Err e
  | Ok file =>
      let path_str := src_path in
      match create_dir_all f dest_path with
      | Err e => Err e
      | Ok f1 =>
          if ends_with path_str ".tar.gz" || ends_with path_str ".tgz" then
            unpack (GzDecoder file) dest_path f1
          else if ends_with path_str ".tar.bz2" || ends_with path_str ".tbz2" then
            unpack (BzDecoder file) dest_path f1
          else if ends_with path_str ".tar.xz" || ends_with path_str ".txz" then
            unpack (XzDecoder file) dest_path f1
          else if ends_with path_str ".tar.zst" || ends_with path_str ".tzst" then
            match zstd_new file with
            | Err e => Err e
            | Ok decoder => unpack decoder dest_path f1
            end
          else if ends_with path_str ".tar" then
            unpack file dest_path f1
          else
            unpack file dest_path f1
      end
  end.

(** The codec table of the specification, read in order; a name matching
    no row is read as plain tar. *)
Inductive codec : Type := Gzip | Bzip2 | Xz | Zstd | NoCodec.

Definition codec_table : list (string * codec) :=
  [(".tar.gz", Gzip); (".tgz", Gzip); (".tar.bz2", Bzip2); (".tbz2", Bzip2);
   (".tar.xz", Xz); (".txz", Xz); (".tar.zst", Zstd); (".tzst", Zstd);
   (".tar", NoCodec)].

Definition codec_of (name : string) : option codec :=
  match find (fun '(suffix, _) => ends_with name suffix) codec_table with
  | Some (_, c) => Some c
  | None => None
  end.

Definition decode (c : codec) (r : reader) : result reader io_error :=
  match c with
  | Gzip => Ok (GzDecoder r)
  | Bzip2 => Ok (BzDecoder r)
  | Xz => Ok (XzDecoder r)
  | Zstd => zstd_new r
  | NoCodec => Ok r
  end.

Definition spec_extract (f : fs) (src_path dest_path : string)
  : result fs io_error :=
  match file_open f src_path with
  | Err e => Err e
  | Ok file =>
      match create_dir_all f dest_path with
      | Err e => Err e
      | Ok f1 =>
          let c := match codec_of src_path with Some c => c | None => NoCodec end in
          match decode c file with
          | Err e => Err e
          | Ok r => unpack r dest_path f1
          end
      end
  end.
End Extraction.

End Extract.

(** * lua_functions.rs: regex_match *)
Module RegexMatch.
Import HostApi.

Section Engine.
(** The regex crate: [Regex::new] (its error's [to_string] on failure)
    and [captures], giving each group's matched text. *)
Variable regex : Type.
Variable regex_new : string -> result regex string.
Variable captures : regex -> string -> option (nat -> option string).

(** [regex_match] (lua_functions.rs, lines 43-56). *)
Definition regex_match (text pattern : string)
  : result (option string * option string * option string * option string) lua_error :=
  match regex_new pattern with
  | Err e => Err (RuntimeError e)
  | Ok re =>
      match captures re text with
      | Some caps => Ok (caps 1, caps 2, caps 3, caps 4)
      | None => Ok (None, None, None, None)
      end
  end.
End Engine.

(** A small engine for examples: a pattern is a literal, found anywhere
    in the text; an unbalanced [(] is a syntax error. *)
Definition lit_new (p : string) : result string string :=
  if String.eqb p "(" then Err "regex parse error: unclosed group" else Ok p.

Definition lit_captures (re text : string) : option (nat -> option string) :=
  match String.index 0 re text with
  | Some _ => Some (fun i => match i with 0 => Some re | _ => None end)
  | None => None
  end.

End RegexMatch.

(** ** Concrete recipes *)
Module RecipeExamples.
Import LuaModel Lifecycle.

(** The [INFO] table of a small recipe for architecture [a], with an
    optional literal [version]. *)
Definition info_table (a : string) (ver : option string) : lua_value :=
  LTable ([("name", LStr "hello"); ("description", LStr "hello world");
           ("url", LStr "https://example.org/hello"); ("license", LStr "MIT");
           ("dev", LBool false); ("provides", LTable [] [LStr "hello"]);
           ("arch", LTable [] [LStr a]);
           ("maintainers", LTable [] [LStr "Jo"])]
          ++ match ver with Some v => [("version", LStr v)] | None => [] end)
         [].

(** Globals after the recipe body: [INFO], the mandatory callbacks, and a
    [VERSION] function when [with_version_fn] is set. *)
Definition recipe_globals (a : string) (ver : option string)
  (with_version_fn : bool) : globals :=
  [("INFO", info_table a ver); ("SOURCES", LFunc 0); ("PREPARE", LFunc 1);
   ("PACKAGE", LFunc 2)]
  ++ (if with_version_fn then [("VERSION", LFunc 3)] else []).

(** Callbacks that succeed; [VERSION] returns ["1.2.3"]. *)
Definition simple_calls (f : nat) (g : globals) : option (lua_value * globals) :=
  match f with
  | 3 => Some (LStr "1.2.3", g)
  | _ => Some (LNil, g)
  end.

Definition simple_recipe (a : string) (ver : option string)
  (with_version_fn : bool) : recipe :=
  {| exec_chunk := Some (recipe_globals a ver with_version_fn);
     call_fn := simple_calls |}.

End RecipeExamples.

(** ** Concrete filesystems *)
Module FsExamples.
Import FsModel.

(** A project at [/home/u/proj] with empty [src] and [pkg] directories,
    next to a directory [/opt/base] holding one library. *)
Definition fs0 : fs :=
  [(["home"], NDir); (["home"; "u"], NDir); (["home"; "u"; "proj"], NDir);
   (["home"; "u"; "proj"; "src"], NDir); (["home"; "u"; "proj"; "pkg"], NDir);
   (["opt"], NDir); (["opt"; "base"], NDir);
   (["opt"; "base"; "libfoo.so"], NFile "ELF")].

(** The same project with a built [tool] in [src]. *)
Definition fs_tool : fs :=
  [(["home"], NDir); (["home"; "u"], NDir); (["home"; "u"; "proj"], NDir);
   (["home"; "u"; "proj"; "src"], NDir);
   (["home"; "u"; "proj"; "src"; "tool"], NFile "ELF");
   (["home"; "u"; "proj"; "pkg"], NDir)].

Definition src_dir : string := "/home/u/proj/src".
Definition pkg_dir : string := "/home/u/proj/pkg".

(** The entries stored below a directory. *)
Definition below (dir : list string) (f : fs) : fs :=
  filter (fun '(k, _) =>
    match strip_names dir k with Some (_ :: _) => true | _ => false end) f.

End FsExamples.

(** * lua_functions.rs: sha256sum_file and json_to_lua_table *)
Module Digest.
Import PathUtils FsModel HostApi.

Section Sha.
(** [sha2::Sha256::digest] followed by [format!("{:x}", hash)]. *)
Variable sha256_hex : string -> string.

(** [sha256sum_file] (file_operations.rs, lines 155-159); [fs::read]
    finds the file as [read_to_string] does, and the model's contents are
    byte strings. *)
Definition sha256sum_file (f : fs) (path : string) : result string io_error :=
  match read_file f path with
  | Ok content => Ok (sha256_hex content)
  | Err e => Err e
  end.

(** [sha256sum_file(path)] as registered for Lua (lua_functions.rs,
    lines 206-219). *)
Definition sha256sum_file_fn (f : fs) (src_dir path : string) : call_result string :=
  match sanitize_path src_dir path with
  | Ok abs_path =>
      match sha256sum_file f abs_path with
      | Ok hash => CallOk hash
      | Err e => io_err e
      end
  | Err e => path_err e
  end.
End Sha.

End Digest.

Module JsonLua.
Import HostApi.

(** [serde_json::Value] with its default [Number] (no
    [arbitrary_precision]): a non-negative integer is a [u64], a negative
    one an [i64], anything else an [f64]; an object's keys are unique. *)
Inductive number : Type :=
| PosInt (u : Z)
| NegInt (i : Z)
| Float (x : PrimFloat.float).

#[warnings="-register-all"]
Inductive json : Type :=
| JNull
| JBool (b : bool)
| JNumber (n : number)
| JString (s : string)
| JArray (a : list json)
| JObject (m : list (string * json)).

(** The [mlua::Value]s [json_to_lua_table] builds; a table maps keys to
    non-nil values. *)
Inductive key : Type :=
| KStr (s : string)
| KInt (i : Z).

#[warnings="-register-all"]
Inductive value : Type :=
| VNil
| VBoolean (b : bool)
| VInteger (i : Z)
| VNumber (x : PrimFloat.float)
| VString (s : string)
| VTable (t : list (key * value)).

Definition table := list (key * value).

Definition key_eqb (a b : key) : bool :=
  match a, b with
  | KStr x, KStr y => String.eqb x y
  | KInt x, KInt y => Z.eqb x y
  | _, _ => false
  end.

(** [t[k]]: [nil] when the key is absent. *)
Definition table_get (t : table) (k : key) : value :=
  match find (fun '(k', _) => key_eqb k k') t with
  | Some (_, v) => v
  | None => VNil
  end.

(** [Table::set] on a fresh table (no metatable): assigning [nil] removes
    the key, any other value replaces its binding. *)
Definition table_set (t : table) (k : key) (v : value) : table :=
  let t' := filter (fun '(k', _) => negb (key_eqb k k')) t in
  match v with
  | VNil => t'
  | _ => t' ++ [(k, v)]
  end.

Definition i64_max : Z := 9223372036854775807.

Section Convert.
(** The [as f64] conversions of [u64] and [i64] (round to nearest). *)
Variable u64_as_f64 : Z -> PrimFloat.float.
Variable i64_as_f64 : Z -> PrimFloat.float.

(** [Number::as_i64] and [Number::as_f64]. *)
Definition as_i64 (n : number) : option Z :=
  match n with
  | PosInt u => if Z.leb u i64_max then Some u else None
  | NegInt i => Some i
  | Float _ => None
  end.

Definition as_f64 (n : number) : option PrimFloat.float :=
  match n with
  | PosInt u => Some (u64_as_f64 u)
  | NegInt i => Some (i64_as_f64 i)
  | Float x => Some x
  end.

(** [json_to_lua_table] (lua_functions.rs, lines 10-39): an object's
    entries are set under string keys, an array's under the integer keys
    1, 2, ...; [create_table], [create_string] and [set] fail only when
    Lua runs out of memory, which is not modelled. *)
Fixpoint json_to_lua_table (j : json) : value :=
  match j with
  | JObject m =>
      VTable ((fix set_fields (m : list (string * json)) (t : table) : table :=
                 match m with
                 | [] => t
                 | (k, v) :: r => set_fields r (table_set t (KStr k) (json_to_lua_table v))
                 end) m [])
  | JArray a =>
      VTable ((fix set_items (a : list json) (i : nat) (t : table) : table :=
                 match a with
                 | [] => t
                 | v :: r =>
                     set_items r (S i)
                       (table_set t (KInt (Z.of_nat (i + 1))) (json_to_lua_table v))
                 end) a 0 [])
  | JString s => VString s
  | JNumber n =>
      match as_i64 n with
      | Some int => VInteger int
      | None =>
          match as_f64 n with
          | Some float => VNumber float
          | None => VNil
          end
      end
  | JBool b => VBoolean b
  | JNull => VNil
  end.

(** [json_decode(json_str)] as registered for Lua (lua_functions.rs,
    lines 162-168), over [serde_json::from_str] and its error message. *)
Variable from_str : string -> result json string.

Definition json_decode (json_str : string) : call_result value :=
  match from_str json_str with
  | Ok json_value => CallOk (json_to_lua_table json_value)
  | Err e => CallErr (ExternalError e)
  end.
End Convert.

(** [t[k]] on a value: [nil] unless it is a table. *)
Definition index (v : value) (k : key) : value :=
  match v with
  | VTable t => table_get t k
  | _ => VNil
  end.

(** The first binding of [k] in an object's entries. *)
Definition field (m : list (string * json)) (k : string) : option json :=
  match find (fun '(k', _) => String.eqb k k') m with
  | Some (_, v) => Some v
  | None => None
  end.

End JsonLua.

(** * lua_functions.rs: unpack_tarball *)
Module Unpack.
Import PathUtils FsModel HostApi Extract.

Section Unpack.
Variable zstd_new : reader -> result reader io_error.
Variable unpack : reader -> string -> fs -> result fs io_error.

(** [unpack_tarball(path, dest)] as registered for Lua (lua_functions.rs,
    lines 221-239). [extract_tarball] returns only its error, so on
    failure the directories it may already have created are not tracked. *)
Definition unpack_tarball_fn (f : fs) (src_dir path dest : string)
  : call_result unit * fs :=
  match sanitize_path src_dir path with
  | Ok abs_path =>
      match validate_absolute_path f dest with
      | Ok abs_dest =>
          match extract_tarball zstd_new unpack f abs_path abs_dest with
          | Ok f' => (CallOk tt, f')
          | Err e => (io_err e, f)
          end
      | Err e => (path_err e, f)
      end
  | Err e => (path_err e, f)
  end.
End Unpack.

End Unpack.

(** * The regex crate: the compiled-size limit of [Regex::new]

    A fragment of the regex syntax: lowercase letters, capture groups and
    exact counted repetition [e{n}] (n at most 1000), nested less than 100
    deep; every pattern of the fragment is valid syntax for regex-syntax.
    [Regex::new] compiles the parsed pattern into a Thompson NFA, which
    adds one state per literal byte, a start and an end state per capture
    group, and [n] copies of [e] for [e{n}]; each state takes at least one
    byte, and the compiler fails with [CompiledTooBig] as soon as the
    states' heap size exceeds [size_limit] (10 MiB by default). *)
Module RegexLimit.

#[warnings="-register-all"]
Inductive hir : Type :=
| HLit (c : ascii)
| HConcat (hs : list hir)
| HGroup (h : hir)
| HRep (h : hir) (n : Z).

Definition is_lower (c : ascii) : bool :=
  Nat.leb 97 (nat_of_ascii c) && Nat.leb (nat_of_ascii c) 122.

Definition is_digit (c : ascii) : bool :=
  Nat.leb 48 (nat_of_ascii c) && Nat.leb (nat_of_ascii c) 57.

(** The decimal count of [{n}] and the rest after [}]. *)
Fixpoint parse_count (s : string) (acc : Z) (seen : bool) : option (Z * string) :=
  match s with
  | String c r =>
      if is_digit c then
        parse_count r (acc * 10 + Z.of_nat (nat_of_ascii c - 48))%Z true
      else if Ascii.eqb c "}"%char && seen && Z.leb acc 1000 then Some (acc, r)
      else None
  | EmptyString => None
  end.

Fixpoint parse_concat (fuel : nat) (s : string) : option (list hir * string) :=
  match fuel with
  | O => None
  | S fuel' =>
      match s with
      | EmptyString => Some ([], EmptyString)
      | String c _ =>
          if Ascii.eqb c ")"%char then Some ([], s) else
          match parse_atom fuel' s with
          | Some (a, r) =>
              match parse_concat fuel' r with
              | Some (hs, r') => Some (a :: hs, r')
              | None => None
              end
          | None => None
          end
      end
  end
with parse_atom (fuel : nat) (s : string) : option (hir * string) :=
  match fuel with
  | O => None
  | S fuel' =>
      let base :=
        match s with
        | String c r =>
            if Ascii.eqb c "("%char then
              match parse_concat fuel' r with
              | Some (hs, String d r') =>
                  if Ascii.eqb d ")"%char then Some (HGroup (HConcat hs), r') else None
              | _ => None
              end
            else if is_lower c then Some (HLit c, r) else None
        | EmptyString => None
        end in
      match base with
      | Some (b, String d r) =>
          if Ascii.eqb d "{"%char then
            match parse_count r 0%Z false with
            | Some (n, r') => Some (HRep b n, r')
            | None => None
            end
          else Some (b, String d r)
      | other => other
      end
  end.

Fixpoint depth (h : hir) : nat :=
  match h with
  | HLit _ => 0
  | HConcat hs => fold_right (fun x m => Nat.max (depth x) m) 0 hs
  | HGroup h => S (depth h)
  | HRep h _ => S (depth h)
  end.

(** A pattern of the fragment, parsed; [None] for anything else. *)
Definition parse_fragment (p : string) : option hir :=
  match parse_concat (3 * String.length p + 3) p with
  | Some (hs, EmptyString) =>
      if Nat.ltb (depth (HConcat hs)) 100 then Some (HConcat hs) else None
  | _ => None
  end.

(** A lower bound on the states the Thompson compiler adds for [h]. *)
Fixpoint nfa_states (h : hir) : Z :=
  match h with
  | HLit _ => 1
  | HConcat hs => fold_right (fun x m => (nfa_states x + m)%Z) 0%Z hs
  | HGroup h => (2 + nfa_states h)%Z
  | HRep h n => (n * nfa_states h)%Z
  end.

(** [RegexBuilder]'s default [size_limit]. *)
Definition size_limit : Z := 10485760.

(** [regex::Error::CompiledTooBig(size_limit).to_string()]. *)
Definition compiled_too_big : string :=
  "Compiled regex exceeds size limit of 10485760 bytes.".

(** [Some m]: [Regex::new(p)] fails with message [m]; [None]: the model
    does not decide [Regex::new(p)]. *)
Definition regex_new_too_big (p : string) : option string :=
  match parse_fragment p with
  | Some h => if Z.ltb size_limit (nfa_states h) then Some compiled_too_big else None
  | None => None
  end.

End RegexLimit.

(* ================================================================== *)
(** * Proofs *)

Module PathFacts.
Import RPath PathClean PathUtils PathShapes.

Lemma str_app_assoc (a b c : string) :
  (a ++ (b ++ c))%string = ((a ++ b) ++ c)%string.
Proof. induction a as [|x a IH]; simpl; [reflexivity|]. rewrite IH. reflexivity. Qed.

Lemma str_app_nil_r (a : string) : (a ++ "")%string = a.
Proof. induction a as [|x a IH]; simpl; [reflexivity|]. rewrite IH. reflexivity. Qed.

Lemma split_nonempty (s : string) : exists seg rest, split s = seg :: rest.
Proof.
  induction s as [|c s IH]; simpl.
  - eauto.
  - destruct (Ascii.eqb c sep); [eauto|].
    destruct IH as (seg & rest & ->). eauto.
Qed.

Lemma split_app_sep (a b : string) :
  split (a ++ String sep b) = split a ++ split b.
Proof.
  induction a as [|c a IH]; simpl.
  - reflexivity.
  - destruct (Ascii.eqb c sep); rewrite IH; [reflexivity|].
    destruct (split_nonempty a) as (seg & rest & ->). reflexivity.
Qed.

Lemma body_app (x y : list string) : body (x ++ y) = body x ++ body y.
Proof.
  induction x as [|s x IH]; simpl; [reflexivity|].
  destruct (classify s); rewrite IH; reflexivity.
Qed.

Lemma components_app_sep (a r : string) :
  a <> "" -> components (a ++ String sep r) = components a ++ body (split r).
Proof.
  intros Ha. destruct a as [|c a']; [congruence|].
  change (String c a' ++ String sep r)%string
    with (String c (a' ++ String sep r)).
  unfold components.
  destruct (Ascii.eqb c sep) eqn:Ec.
  - rewrite split_app_sep, body_app. reflexivity.
  - replace (split (String c (a' ++ String sep r)))
      with (split (String c a') ++ split r)
      by (symmetry; exact (split_app_sep (String c a') r)).
    destruct (split_nonempty (String c a')) as (first & rest & E).
    rewrite E. simpl.
    destruct (String.eqb first "."); simpl;
      [rewrite body_app; reflexivity|].
    destruct (classify first); rewrite body_app; reflexivity.
Qed.

Lemma ends_with_sep_app (a b : string) :
  b <> "" -> ends_with_sep (a ++ b) = ends_with_sep b.
Proof.
  intros Hb. induction a as [|c a IH]; [reflexivity|].
  change (String c a ++ b)%string with (String c (a ++ b)).
  simpl. rewrite <- IH.
  destruct a; simpl; [destruct b; [congruence|reflexivity]|].
  reflexivity.
Qed.

Lemma ends_with_sep_inv (s : string) :
  ends_with_sep s = true -> exists b0, s = (b0 ++ String sep "")%string.
Proof.
  induction s as [|c s IH]; simpl; [discriminate|].
  destruct s as [|c' s'].
  - intros E. apply Ascii.eqb_eq in E. subst. exists "". reflexivity.
  - intros E. destruct (IH E) as (b0 & Hb).
    exists (String c b0). rewrite Hb. reflexivity.
Qed.

Lemma components_push (base rel : string) :
  base <> "" -> is_absolute rel = false ->
  components (push base rel) = components base ++ body (split rel).
Proof.
  intros Hb Hr. unfold push. rewrite Hr.
  destruct (String.eqb base "") eqn:E0.
  { apply String.eqb_eq in E0. contradiction. }
  simpl. destruct (ends_with_sep base) eqn:Es; simpl.
  - destruct (ends_with_sep_inv base Es) as (b0 & ->).
    rewrite <- str_app_assoc. simpl.
    destruct b0 as [|c0 b0'].
    + reflexivity.
    + rewrite !components_app_sep by discriminate.
      simpl. rewrite app_nil_r. reflexivity.
  - apply components_app_sep; assumption.
Qed.

Lemma split_nosep (s : string) : has_sep s = false -> split s = [s].
Proof.
  induction s as [|c s IH]; simpl; [reflexivity|].
  intros H. apply orb_false_iff in H as [Hc Hs].
  rewrite Hc, (IH Hs). reflexivity.
Qed.

Lemma join_segs_cons2 (s s2 : string) (r : list string) :
  join_segs (s :: s2 :: r) = (s ++ String sep (join_segs (s2 :: r)))%string.
Proof. reflexivity. Qed.

Lemma split_join (segs : list string) :
  Forall (fun s => has_sep s = false) segs -> segs <> [] ->
  split (join_segs segs) = segs.
Proof.
  induction segs as [|s r IH]; intros Hf Hne; [congruence|].
  inversion Hf as [|? ? Hs Hr]; subst.
  destruct r as [|s2 r].
  - simpl. rewrite str_app_nil_r. apply split_nosep. assumption.
  - rewrite join_segs_cons2, split_app_sep, split_nosep by assumption.
    rewrite IH by (assumption || discriminate). reflexivity.
Qed.

Lemma good_name_seg (n : string) : good_name n -> good_seg n.
Proof. intros (H1 & H2 & _ & H4). repeat split; assumption. Qed.

Lemma seg_comp_name (n : string) : good_name n -> seg_comp n = Normal n.
Proof.
  intros (_ & _ & H3 & _). unfold seg_comp.
  rewrite (proj2 (String.eqb_neq _ _) H3). reflexivity.
Qed.

Lemma classify_seg (n : string) : good_seg n -> classify n = Some (seg_comp n).
Proof.
  intros (H1 & H2 & _). unfold classify, seg_comp.
  rewrite (proj2 (String.eqb_neq _ _) H1), (proj2 (String.eqb_neq _ _) H2).
  destruct (String.eqb n ".."); reflexivity.
Qed.

Lemma comp_str_seg (n : string) : comp_str (seg_comp n) = n.
Proof.
  unfold seg_comp. destruct (String.eqb n "..") eqn:E; [|reflexivity].
  apply String.eqb_eq in E. subst. reflexivity.
Qed.

Lemma body_segs (segs : list string) :
  Forall good_seg segs -> body segs = map seg_comp segs.
Proof.
  induction 1 as [|n r Hn Hr IH]; [reflexivity|].
  simpl. rewrite (classify_seg n Hn), IH. reflexivity.
Qed.

Lemma has_sep_not_abs (n : string) :
  n <> "" -> has_sep n = false -> is_absolute n = false.
Proof.
  destruct n as [|c n]; [congruence|]. simpl.
  intros _ H. apply orb_false_iff in H. apply H.
Qed.

Lemma has_sep_not_ends (n : string) : has_sep n = false -> ends_with_sep n = false.
Proof.
  induction n as [|c n IH]; simpl; [reflexivity|].
  intros H. apply orb_false_iff in H as [Hc Hn].
  destruct n; [exact Hc|]. apply IH, Hn.
Qed.

Lemma is_absolute_app (a b : string) :
  a <> "" -> is_absolute (a ++ b) = is_absolute a.
Proof. destruct a; [congruence|reflexivity]. Qed.

Lemma push_empty (n : string) : is_absolute n = false -> push "" n = n.
Proof. intros H. unfold push. rewrite H. reflexivity. Qed.

Lemma push_sep (buf n : string) :
  buf <> "" -> ends_with_sep buf = false -> is_absolute n = false ->
  push buf n = (buf ++ String sep n)%string.
Proof.
  intros Hb He Hn. unfold push. rewrite Hn, He.
  rewrite (proj2 (String.eqb_neq _ _) Hb). reflexivity.
Qed.

Lemma render_fold (segs : list string) (buf : string) :
  Forall good_seg segs -> buf <> "" -> ends_with_sep buf = false ->
  fold_left (fun b c => push b (comp_str c)) (map seg_comp segs) buf
  = (buf ++ concat_pre segs)%string.
Proof.
  intros Hf. revert buf.
  induction Hf as [|n r Hn Hr IH]; intros buf Hb He; simpl.
  - rewrite str_app_nil_r. reflexivity.
  - destruct Hn as (Hn1 & Hn2 & Hn3).
    rewrite comp_str_seg, push_sep by auto using has_sep_not_abs.
    rewrite IH.
    + rewrite <- str_app_assoc. reflexivity.
    + destruct buf; discriminate || congruence.
    + rewrite ends_with_sep_app by discriminate.
      simpl. destruct n; [congruence|]. apply has_sep_not_ends. exact Hn3.
Qed.

Lemma render_segs (segs : list string) :
  Forall good_seg segs -> render (map seg_comp segs) = join_segs segs.
Proof.
  intros Hf. destruct Hf as [|n r Hn Hr]; [reflexivity|].
  unfold render. simpl. destruct Hn as (Hn1 & Hn2 & Hn3).
  rewrite comp_str_seg, push_empty by auto using has_sep_not_abs.
  apply render_fold; auto using has_sep_not_ends.
Qed.

Lemma render_root_segs (segs : list string) :
  Forall good_seg segs ->
  render (RootDir :: map seg_comp segs) = String sep (join_segs segs).
Proof.
  intros Hf. destruct Hf as [|n r Hn Hr]; [reflexivity|].
  unfold render. cbn [fold_left map].
  replace (push "" (comp_str RootDir)) with "/" by reflexivity.
  destruct Hn as (Hn1 & Hn2 & Hn3).
  rewrite comp_str_seg.
  replace (push "/" n) with (String sep n)
    by (unfold push; rewrite (has_sep_not_abs n Hn1 Hn3); reflexivity).
  rewrite render_fold; [reflexivity | assumption | discriminate |].
  simpl. destruct n; [congruence|]. apply has_sep_not_ends. exact Hn3.
Qed.

Lemma components_rel (s : string) :
  is_absolute s = false ->
  components s = match split s with
                 | first :: rest =>
                     if String.eqb first "." then CurDir :: body rest
                     else body (first :: rest)
                 | [] => []
                 end.
Proof.
  destruct s as [|c s']; [reflexivity|].
  simpl is_absolute. intros H. unfold components. rewrite H. reflexivity.
Qed.

Lemma Forall_good_nosep (segs : list string) :
  Forall good_seg segs -> Forall (fun s => has_sep s = false) segs.
Proof. apply Forall_impl. intros a (_ & _ & H). exact H. Qed.

Lemma components_join (segs : list string) :
  Forall good_seg segs -> components (join_segs segs) = map seg_comp segs.
Proof.
  intros Hf. destruct segs as [|n r]; [reflexivity|].
  pose proof Hf as Hf'. inversion Hf' as [|? ? Hn Hr]; subst.
  destruct Hn as (Hn1 & Hn2 & Hn3).
  rewrite components_rel.
  - rewrite split_join by (auto using Forall_good_nosep; discriminate).
    rewrite (proj2 (String.eqb_neq _ _) Hn2).
    apply body_segs. exact Hf.
  - simpl. rewrite is_absolute_app by exact Hn1.
    apply has_sep_not_abs; assumption.
Qed.

Lemma body_split_join (segs : list string) :
  Forall good_seg segs -> body (split (join_segs segs)) = map seg_comp segs.
Proof.
  intros Hf. destruct segs as [|n r]; [reflexivity|].
  rewrite split_join by (auto using Forall_good_nosep; discriminate).
  apply body_segs. exact Hf.
Qed.

Lemma components_root_join (segs : list string) :
  Forall good_seg segs ->
  components (String sep (join_segs segs)) = RootDir :: map seg_comp segs.
Proof.
  intros Hf. unfold components. simpl Ascii.eqb.
  rewrite body_split_join by exact Hf. reflexivity.
Qed.

Lemma split_all_nosep (s : string) :
  Forall (fun x => has_sep x = false) (split s).
Proof.
  induction s as [|c s IH]; simpl; [constructor; reflexivity || constructor|].
  destruct (Ascii.eqb c sep) eqn:Ec; [constructor; [reflexivity|exact IH]|].
  destruct (split s) as [|seg rest]; [constructor; [simpl; rewrite Ec; reflexivity|constructor]|].
  inversion IH as [|? ? Hs Hr]; subst.
  constructor; [simpl; rewrite Ec, Hs; reflexivity|exact Hr].
Qed.

Lemma body_seg_like (segs : list string) :
  Forall (fun x => has_sep x = false) segs -> Forall seg_like (body segs).
Proof.
  induction 1 as [|n r Hn Hr IH]; simpl; [constructor|].
  unfold classify.
  destruct (String.eqb n "") eqn:E1; [exact IH|].
  destruct (String.eqb n ".") eqn:E2; [exact IH|].
  destruct (String.eqb n "..") eqn:E3; constructor; try exact IH.
  - left. reflexivity.
  - right. exists n. split; [reflexivity|].
    apply String.eqb_neq in E1, E2, E3. repeat split; assumption.
Qed.

Lemma components_decomp (s : string) :
  exists h cs, components s = h ++ cs /\
    (h = [] \/ h = [RootDir] \/ h = [CurDir]) /\ Forall seg_like cs.
Proof.
  destruct s as [|c s'].
  - exists [], []. repeat constructor.
  - unfold components. destruct (Ascii.eqb c sep) eqn:Ec.
    + exists [RootDir], (body (split s')). split; [reflexivity|].
      split; [auto|]. apply body_seg_like, split_all_nosep.
    + pose proof (split_all_nosep (String c s')) as Hall.
      destruct (split (String c s')) as [|first rest];
        [exists [], []; repeat constructor|].
      inversion Hall as [|? ? Hf Hr]; subst.
      destruct (String.eqb first ".").
      * exists [CurDir], (body rest). split; [reflexivity|].
        split; [auto|]. apply body_seg_like. exact Hr.
      * exists [], (body (first :: rest)). split; [reflexivity|].
        split; [auto|]. apply body_seg_like. constructor; assumption.
Qed.

Lemma clean_step_inv (out : list component) (c : component) :
  clean_inv out -> seg_like c -> clean_inv (clean_step out c).
Proof.
  intros (rooted & k & rns & Hg & ->) Hc.
  destruct Hc as [-> | (n & -> & Hn)].
  - destruct rns as [|m rns'].
    + destruct rooted.
      * exists true, k, []. split; [constructor|reflexivity].
      * destruct k as [|k].
        -- exists false, 1, []. split; [constructor|reflexivity].
        -- exists false, (S (S k)), []. split; [constructor|reflexivity].
    + inversion Hg; subst.
      exists rooted, k, rns'. split; [assumption|reflexivity].
  - exists rooted, k, (n :: rns). split; [constructor; assumption|reflexivity].
Qed.

Lemma clean_fold_inv (cs : list component) (out : list component) :
  Forall seg_like cs -> clean_inv out ->
  clean_inv (fold_left clean_step cs out).
Proof.
  intros Hf. revert out.
  induction Hf as [|c cs Hc Hcs IH]; intros out Hout; simpl; [exact Hout|].
  apply IH, clean_step_inv; assumption.
Qed.

Lemma clean_shape (p : string) :
  exists (rooted : bool) (k : nat) (names : list string),
    Forall good_name names /\
    rev (fold_left clean_step (components p) [])
    = (if rooted then RootDir :: map Normal names
       else repeat ParentDir k ++ map Normal names).
Proof.
  destruct (components_decomp p) as (h & cs & Hp & Hh & Hcs).
  rewrite Hp, fold_left_app.
  assert (H0 : clean_inv (fold_left clean_step h [])).
  { destruct Hh as [-> | [-> | ->]].
    - exists false, 0, []. split; [constructor|reflexivity].
    - exists true, 0, []. split; [constructor|reflexivity].
    - exists false, 0, []. split; [constructor|reflexivity]. }
  destruct (clean_fold_inv cs _ Hcs H0) as (rooted & k & rns & Hg & ->).
  exists rooted, k, (rev rns). split; [apply Forall_rev; exact Hg|].
  rewrite rev_app_distr, map_rev.
  destruct rooted; [reflexivity|]. rewrite rev_repeat. reflexivity.
Qed.

Lemma component_eqb_refl (c : component) : component_eqb c c = true.
Proof. unfold component_eqb. destruct (component_eq_dec c c); congruence. Qed.

Lemma component_eqb_neq (a b : component) : a <> b -> component_eqb a b = false.
Proof. unfold component_eqb. destruct (component_eq_dec a b); congruence. Qed.

Lemma iter_after_nil (xs : list component) : iter_after xs [] = Some xs.
Proof. destruct xs; reflexivity. Qed.

Lemma iter_after_app (xs ys : list component) : iter_after (xs ++ ys) xs = Some ys.
Proof.
  induction xs as [|x xs IH]; simpl; [apply iter_after_nil|].
  rewrite component_eqb_refl. exact IH.
Qed.

Lemma iter_after_self (xs : list component) : iter_after xs xs = Some [].
Proof. rewrite <- (app_nil_r xs) at 1. apply iter_after_app. Qed.

Lemma names_segs (names : list string) :
  Forall good_name names -> Forall good_seg names.
Proof. apply Forall_impl. exact good_name_seg. Qed.

Lemma map_seg_names (names : list string) :
  Forall good_name names -> map seg_comp names = map Normal names.
Proof.
  induction 1 as [|n r Hn Hr IH]; [reflexivity|].
  simpl. rewrite seg_comp_name, IH by exact Hn. reflexivity.
Qed.

Lemma existsb_parent_names (names : list string) :
  existsb is_parent_dir (map Normal names) = false.
Proof. induction names as [|n r IH]; [reflexivity|exact IH]. Qed.

Lemma dotdot_segs (k : nat) (names : list string) :
  Forall good_name names ->
  Forall good_seg (repeat ".." k ++ names) /\
  map seg_comp (repeat ".." k ++ names) = repeat ParentDir k ++ map Normal names.
Proof.
  intros Hg. induction k as [|k [IH1 IH2]]; simpl.
  - split; [apply names_segs; exact Hg | apply map_seg_names; exact Hg].
  - split; [|rewrite IH2; reflexivity].
    constructor; [|exact IH1].
    repeat split; discriminate.
Qed.

(** The successful results of [sanitize_path]: the base joined with
    a separator-joined list of plain names, or with [.]. *)
Lemma sanitize_ok_shape (base p q : string) :
  sanitize_path base p = Ok q ->
  exists names rel, Forall good_name names /\
    (rel = join_segs names \/ (names = [] /\ rel = ".")) /\
    q = join base rel.
Proof.
  intros H. unfold sanitize_path, clean in H.
  destruct (clean_shape p) as (rooted & k & names & Hg & Hc).
  rewrite Hc in H. pose proof (names_segs names Hg) as Hs.
  destruct rooted.
  - rewrite <- (map_seg_names names Hg), render_root_segs in H by exact Hs.
    unfold strip_prefix in H.
    rewrite components_root_join, map_seg_names in H by assumption.
    cbn [existsb is_parent_dir orb] in H.
    rewrite existsb_parent_names in H.
    change (components "/") with [RootDir] in H.
    cbn [iter_after] in H. rewrite component_eqb_refl, iter_after_nil in H.
    rewrite <- (map_seg_names names Hg), render_segs in H by exact Hs.
    destruct (negb _) in H; [discriminate|].
    injection H as <-. exists names, (join_segs names). auto.
  - destruct k as [|k].
    + destruct names as [|n names'].
      * cbn in H. destruct (negb _) in H; [discriminate|].
        injection H as <-. exists [], ".". auto.
      * change (repeat ParentDir 0 ++ map Normal (n :: names'))
          with (Normal n :: map Normal names') in H.
        cbv beta iota in H.
        change (Normal n :: map Normal names')
          with (map Normal (n :: names')) in H.
        rewrite <- (map_seg_names _ Hg), render_segs in H by exact Hs.
        unfold strip_prefix in H.
        rewrite components_join, map_seg_names in H by assumption.
        rewrite existsb_parent_names in H.
        change (components "/") with [RootDir] in H.
        cbn [map iter_after] in H.
        rewrite component_eqb_neq in H by discriminate.
        destruct (negb _) in H; [discriminate|].
        injection H as <-. exists (n :: names'), (join_segs (n :: names')). auto.
    + destruct (dotdot_segs (S k) names Hg) as [Hds Hdm].
      change (repeat ParentDir (S k) ++ map Normal names)
        with (ParentDir :: (repeat ParentDir k ++ map Normal names)) in H.
      cbv beta iota in H.
      change (ParentDir :: (repeat ParentDir k ++ map Normal names))
        with (repeat ParentDir (S k) ++ map Normal names) in H.
      rewrite <- Hdm, render_segs, components_join, Hdm in H by exact Hds.
      discriminate H.
Qed.

Lemma prefix_app (a b : string) : String.prefix a (a ++ b) = true.
Proof.
  induction a as [|c a IH]; simpl; [destruct b; reflexivity|].
  destruct (ascii_dec c c); [exact IH|congruence].
Qed.

Lemma join_segs_not_abs (names : list string) :
  Forall good_name names -> is_absolute (join_segs names) = false.
Proof.
  intros Hg. destruct Hg as [|n r (Hn1 & _ & _ & Hn4) _]; [reflexivity|].
  simpl. rewrite is_absolute_app by exact Hn1.
  apply has_sep_not_abs; assumption.
Qed.

Lemma push_prefix (base rel : string) :
  is_absolute rel = false -> String.prefix base (push base rel) = true.
Proof.
  intros Hr. unfold push. rewrite Hr.
  destruct (negb _ && negb _); apply prefix_app.
Qed.

Lemma components_join_names (base : string) (names : list string) :
  base <> "" -> Forall good_name names ->
  components (join base (join_segs names)) = components base ++ map Normal names.
Proof.
  intros Hb Hg. unfold join.
  rewrite components_push by auto using join_segs_not_abs.
  rewrite body_split_join, map_seg_names by auto using names_segs.
  reflexivity.
Qed.

Lemma components_join_dot (base : string) :
  base <> "" -> components (join base ".") = components base.
Proof.
  intros Hb. unfold join. rewrite components_push by auto.
  apply app_nil_r.
Qed.

Lemma clean_fold_names (ns : list string) (out : list component) :
  fold_left clean_step (map Normal ns) out = rev (map Normal ns) ++ out.
Proof.
  revert out. induction ns as [|n ns IH]; intros out; [reflexivity|].
  simpl. rewrite IH, <- app_assoc. reflexivity.
Qed.

(** Feeding a separator-joined list of names back to [sanitize_path]
    yields the base joined with those names. *)
Lemma sanitize_names (base : string) (names : list string) :
  base <> "" -> Forall good_name names ->
  exists q', sanitize_path base (join_segs names) = Ok q' /\
    components q' = components base ++ map Normal names.
Proof.
  intros Hb Hg. unfold sanitize_path, clean.
  rewrite components_join, map_seg_names by auto using names_segs.
  rewrite clean_fold_names, app_nil_r, rev_involutive.
  destruct names as [|n r].
  - cbn [map]. change (components ".") with [CurDir].
    change (existsb is_parent_dir [CurDir]) with false.
    cbv beta iota zeta.
    unfold strip_prefix. change (components ".") with [CurDir].
    change (components "/") with [RootDir].
    cbn [iter_after]. rewrite component_eqb_neq by discriminate.
    unfold starts_with. rewrite components_join_dot by exact Hb.
    rewrite iter_after_self. simpl.
    exists (join base "."). split; [reflexivity|].
    rewrite components_join_dot by exact Hb. symmetry. apply app_nil_r.
  - change (map Normal (n :: r)) with (Normal n :: map Normal r).
    cbv beta iota zeta.
    change (Normal n :: map Normal r) with (map Normal (n :: r)).
    rewrite <- (map_seg_names _ Hg), render_segs by auto using names_segs.
    rewrite components_join, map_seg_names by auto using names_segs.
    rewrite existsb_parent_names.
    unfold strip_prefix.
    rewrite components_join, map_seg_names by auto using names_segs.
    change (components "/") with [RootDir].
    cbn [map iter_after]. rewrite component_eqb_neq by discriminate.
    unfold starts_with. rewrite components_join_names by assumption.
    rewrite iter_after_app. simpl.
    exists (join base (join_segs (n :: r))). split; [reflexivity|].
    apply components_join_names; assumption.
Qed.

End PathFacts.

Module ConfineClaims.
Import RPath PathClean PathUtils PathShapes PathFacts.

(** C1: whenever [sanitize_path] succeeds, the returned path passes the
    component-wise [starts_with] test against the base and its string
    begins with the base's string: confinement never yields a path outside
    the base. *)
Theorem sanitize_path_within_base (base p q : string) :
  sanitize_path base p = Ok q ->
  starts_with q base = true /\ String.prefix base q = true.
Proof.
  intros H. split.
  - unfold sanitize_path in H.
    destruct (existsb _ _) in H; [discriminate|].
    cbv zeta in H.
    match type of H with
    | (if negb ?b then _ else _) = _ => destruct b eqn:E
    end; simpl in H; [|discriminate].
    injection H as <-. exact E.
  - destruct (sanitize_ok_shape base p q H)
      as (names & rel & Hg & Hrel & ->).
    unfold join. apply push_prefix.
    destruct Hrel as [-> | [_ ->]]; [apply join_segs_not_abs; exact Hg|reflexivity].
Qed.

Lemma sanitize_path_within_base_witness :
  sanitize_path "/home/u/proj/src" "a/./b/../c" = Ok "/home/u/proj/src/a/c" /\
  starts_with "/home/u/proj/src/a/c" "/home/u/proj/src" = true /\
  String.prefix "/home/u/proj/src" "/home/u/proj/src/a/c" = true.
Proof.
  assert (H : sanitize_path "/home/u/proj/src" "a/./b/../c"
              = Ok "/home/u/proj/src/a/c") by (vm_compute; reflexivity).
  split; [exact H|].
  exact (sanitize_path_within_base _ _ _ H).
Defined.

(** C2: [sanitize_path] fails with [PathTraversal] exactly on the inputs
    whose normalised form ([clean], run first) still contains a [..]
    component; on those it never returns a path. *)
Theorem sanitize_path_traversal (base p : string) :
  sanitize_path base p = Err PathTraversal <->
  existsb is_parent_dir (components (clean p)) = true.
Proof.
  unfold sanitize_path. split.
  - destruct (existsb _ _); [reflexivity|].
    cbv zeta. destruct (negb _); discriminate.
  - intros ->. reflexivity.
Qed.

(** C9: for an absolute (in particular non-empty) base, the relative tail
    of any path returned by [sanitize_path], fed back with the same base,
    is accepted again and yields a path equal (as a [Path]) to the first. *)
Theorem sanitize_path_idempotent (base p q : string) :
  base <> "" -> sanitize_path base p = Ok q ->
  exists tail q', strip_prefix q base = Some tail /\
    sanitize_path base tail = Ok q' /\ path_eqb q' q = true.
Proof.
  intros Hb H.
  destruct (sanitize_ok_shape base p q H) as (names & rel & Hg & Hrel & ->).
  assert (Hq : components (join base rel) = components base ++ map Normal names).
  { destruct Hrel as [-> | [-> ->]].
    - apply components_join_names; assumption.
    - rewrite components_join_dot by exact Hb. symmetry. apply app_nil_r. }
  destruct (sanitize_names base names Hb Hg) as (q' & Hs & Hc).
  exists (join_segs names), q'. split; [|split; [exact Hs|]].
  - unfold strip_prefix. rewrite Hq, iter_after_app.
    rewrite <- (map_seg_names _ Hg), render_segs by auto using names_segs.
    reflexivity.
  - unfold path_eqb. rewrite Hc, Hq.
    destruct (list_eq_dec _ _ _); congruence.
Qed.

Lemma sanitize_path_idempotent_witness :
  exists tail q', strip_prefix "/home/u/proj/src/a/c" "/home/u/proj/src" = Some tail /\
    sanitize_path "/home/u/proj/src" tail = Ok q' /\
    path_eqb q' "/home/u/proj/src/a/c" = true.
Proof.
  apply (sanitize_path_idempotent "/home/u/proj/src" "a/./b/../c").
  - discriminate.
  - vm_compute. reflexivity.
Defined.

End ConfineClaims.

Module LifecycleClaims.
Import LuaModel Lifecycle RecipeExamples.

(** C3 (failing input): a recipe with only a literal [version] (no
    [VERSION] function) is rejected at metadata validation with status 1,
    because [get::<Value>("VERSION")] is [Ok(Nil)] for a missing global,
    so the "both found" branch fires; the same recipe with only a
    [VERSION] function is accepted. *)
Theorem version_literal_only_rejected :
  main_lifecycle "x86_64" (simple_recipe "x86_64" (Some "1.0.0") false)
  = (Exited 1 ValidateMetadata, []) /\
  main_lifecycle "x86_64" (simple_recipe "x86_64" None true)
  = (ReachedFinalize, ["SOURCES"; "VERSION"; "PREPARE"; "PACKAGE"]).
Proof. split; vm_compute; reflexivity. Qed.

Lemma existsb_eqb_notin (h : string) (l : list string) :
  ~ In h l -> existsb (String.eqb h) l = false.
Proof.
  induction l as [|x l IH]; simpl; [reflexivity|].
  intros Hn. destruct (String.eqb h x) eqn:E.
  - apply String.eqb_eq in E. subst. tauto.
  - apply IH. tauto.
Qed.



End LifecycleClaims.

Module HostClaims.
Import RPath PathUtils FsModel HostApi Manifest FsExamples.

(** C4: every confined operation turns a failed confinement check into an
    error of that call, which the recipe can catch with [pcall]: a
    [sanitize_path] failure under the source directory ([file_load],
    [file_save], [download], [sha256sum_file], [unpack_tarball], the
    source of [copy], [git.load] and the destination of [git.clone]), a
    [sanitize_path] failure under the package directory (the destination
    of [copy] and the link path of [link]), and a [validate_absolute_path]
    failure (the target of [link], the destination of [unpack_tarball]).
    In [git.load] and [git.clone] this error is the unwrap panic, which
    mlua catches and raises in Lua. *)
Theorem confinement_failure_recoverable :
  forall (fetch : string -> result string string)
         (repo_open : string -> result string string)
         (repo_clone : string -> string -> fs -> result (string * fs) string)
         (sha256_hex : string -> string)
         (zstd_new : Extract.reader -> result Extract.reader io_error)
         (unpack : Extract.reader -> string -> fs -> result fs io_error)
         (f : fs) (src pkg : string),
    (forall p e, sanitize_path src p = Err e ->
       (exists err, file_load f src p = CallErr err) /\
       (forall content, exists err, fst (file_save f src p content) = CallErr err) /\
       (forall url, exists err, fst (download fetch f src url p) = CallErr err) /\
       (exists err, Digest.sha256sum_file_fn sha256_hex f src p = CallErr err) /\
       (forall dest, exists err,
          fst (Unpack.unpack_tarball_fn zstd_new unpack f src p dest) = CallErr err) /\
       (forall dest, exists err, fst (copy f src pkg p dest) = CallErr err) /\
       (exists err, git_load repo_open src p = CallErr err) /\
       (forall url, exists err, fst (git_clone repo_clone f src url (Some p)) = CallErr err)) /\
    (forall p e, sanitize_path pkg p = Err e ->
       (forall s, exists err, fst (copy f src pkg s p) = CallErr err) /\
       (forall target, exists err, fst (link f pkg target p) = CallErr err)) /\
    (forall t e, validate_absolute_path f t = Err e ->
       (forall l, exists err, fst (link f pkg t l) = CallErr err) /\
       (forall path, exists err,
          fst (Unpack.unpack_tarball_fn zstd_new unpack f src path t) = CallErr err)).
Proof.
  intros fetch repo_open repo_clone sha256_hex zstd_new unpack f src pkg.
  split; [|split].
  - intros p e H.
    unfold file_load, file_save, download, download_file_blocking,
      Digest.sha256sum_file_fn, Unpack.unpack_tarball_fn, copy, git_load, git_clone.
    repeat split; intros; cbv beta iota zeta;
      try (destruct (create_dir_all f src)); try rewrite H; eexists; reflexivity.
  - intros p e H. split; intros; unfold copy, link.
    + destruct (sanitize_path src s); [rewrite H|]; eexists; reflexivity.
    + destruct (validate_absolute_path f target); [rewrite H|]; eexists; reflexivity.
  - intros t e H. split; intros; unfold link, Unpack.unpack_tarball_fn.
    + rewrite H. eexists. reflexivity.
    + destruct (sanitize_path src path); [rewrite H|]; eexists; reflexivity.
Qed.

(** On the traversal ["../escape"] and the relative link target ["opt"],
    [file_load] and [git.load] fail with their errors, and [link] with
    the invalid-path error. *)
Lemma confinement_failure_recoverable_witness :
  file_load fs0 src_dir "../escape"
    = CallErr (RuntimeError "Path error: Path traversal attack detected") /\
  git_load (fun _ => Err "not a repository") src_dir "../escape"
    = CallErr (CallbackPanic "called `Result::unwrap()` on an `Err` value: PathTraversal") /\
  (exists err, git_load (fun _ => Err "not a repository") src_dir "../escape" = CallErr err) /\
  (exists err, fst (link fs0 pkg_dir "opt" "lib") = CallErr err).
Proof.
  destruct (confinement_failure_recoverable (fun _ => Err "offline")
              (fun _ => Err "not a repository") (fun _ _ _ => Err "offline")
              (fun s => s) (fun r => Ok r) (fun _ _ g => Ok g) fs0 src_dir pkg_dir)
    as [Hs [_ Hv]].
  split; [vm_compute; reflexivity|].
  split; [vm_compute; reflexivity|].
  assert (Hp : sanitize_path src_dir "../escape" = Err PathTraversal)
    by (vm_compute; reflexivity).
  assert (Ht : validate_absolute_path fs0 "opt"
               = Err (InvalidPath "Path must be absolute"))
    by (vm_compute; reflexivity).
  destruct (Hs _ _ Hp) as (_ & _ & _ & _ & _ & _ & Hg & _).
  destruct (Hv _ _ Ht) as [Hl _].
  split; [exact Hg | exact (Hl "lib")].
Defined.

(** C5 (code bug): [download] creates only [SRC_DIR], not the parent of
    its destination, so a destination with missing intermediate
    directories fails with [NotFound] and writes nothing, whatever the
    body fetched; [file_save] to the same path creates the parents and
    succeeds. *)
Theorem download_nested_not_found :
  forall body : string,
    download (fun _ => Ok body) fs0 src_dir "https://example.org/f.tar.gz"
      "sub/dir/f.tar.gz"
    = (CallErr (RuntimeError "Download error: No such file or directory (os error 2)"),
       fs0) /\
    file_save fs0 src_dir "sub/dir/f.tar.gz" body
    = (CallOk tt,
       fs0 ++ [(["home"; "u"; "proj"; "src"; "sub"], NDir);
               (["home"; "u"; "proj"; "src"; "sub"; "dir"], NDir);
               (["home"; "u"; "proj"; "src"; "sub"; "dir"; "f.tar.gz"], NFile body)]).
Proof.
  intro body. split; vm_compute; reflexivity.
Qed.

(** C6 (code bug): the manifest is not one entry per file or symlink of
    the package tree. [visit_dirs] tests [is_dir], which follows
    symlinks, so a symlink to a directory made with [link] is listed and
    then descended into: with [pkg/lib -> /opt/base] the tree below [pkg]
    holds one symlink, yet [.pkgfiles] has two lines; a symlink back to
    [pkg] itself yields 41 entries, up to the kernel's link limit. *)
Theorem manifest_follows_dir_symlinks :
  fst (link fs0 pkg_dir "/opt/base" "lib") = CallOk tt /\
  below ["home"; "u"; "proj"; "pkg"] (snd (link fs0 pkg_dir "/opt/base" "lib"))
    = [(["home"; "u"; "proj"; "pkg"; "lib"], NLink "/opt/base")] /\
  pkgfiles (snd (link fs0 pkg_dir "/opt/base" "lib")) pkg_dir
    = Ok ("/lib" ++ nl ++ "/lib/libfoo.so")%string /\
  fst (link fs0 pkg_dir pkg_dir "loop") = CallOk tt /\
  below ["home"; "u"; "proj"; "pkg"] (snd (link fs0 pkg_dir pkg_dir "loop"))
    = [(["home"; "u"; "proj"; "pkg"; "loop"], NLink pkg_dir)] /\
  (exists l, visit_dirs path_max (snd (link fs0 pkg_dir pkg_dir "loop")) pkg_dir []
             = Ok l /\ length l = 41).
Proof.
  split; [vm_compute; reflexivity|].
  split; [vm_compute; reflexivity|].
  split; [vm_compute; reflexivity|].
  split; [vm_compute; reflexivity|].
  split; [vm_compute; reflexivity|].
  eexists. split; [vm_compute; reflexivity|].
  reflexivity.
Qed.

End HostClaims.

Module ExtractClaims.
Import FsModel Extract.

(** C7: [extract_tarball] chooses its decoder from the source name alone,
    as the ordered suffix table [codec_table] gives it (gzip for
    [.tar.gz]/[.tgz], bzip2 for [.tar.bz2]/[.tbz2], xz for
    [.tar.xz]/[.txz], zstd for [.tar.zst]/[.tzst], none for [.tar]),
    whatever the tar reader and the zstd constructor do; and a name
    matching no row is unpacked as the raw file, with no
    format-detection step that could fail. *)
Theorem extract_codec_by_suffix :
  forall (zstd_new : reader -> result reader io_error)
         (unpack : reader -> string -> fs -> result fs io_error)
         (f : fs) (src dest : string),
    extract_tarball zstd_new unpack f src dest
      = spec_extract zstd_new unpack f src dest /\
    (codec_of src = None ->
     extract_tarball zstd_new unpack f src dest
       = match file_open f src with
         | Err e => Err e
         | Ok file =>
             match create_dir_all f dest with
             | Err e => Err e
             | Ok f1 => unpack file dest f1
             end
         end).
Proof.
  intros zstd_new unpack f src dest.
  unfold extract_tarball, spec_extract, codec_of, codec_table.
  destruct (file_open f src) as [file|e]; [|split; [reflexivity|intros; reflexivity]].
  destruct (create_dir_all f dest) as [f1|e]; [|split; [reflexivity|intros; reflexivity]].
  cbn [find orb].
  repeat match goal with
         | |- context [if ends_with src ?x then _ else _] =>
             destruct (ends_with src x); cbn [orb]
         end;
  cbn [decode]; split; try reflexivity; intro H; try discriminate H;
  destruct (zstd_new file); reflexivity.
Qed.

Lemma extract_codec_by_suffix_witness :
  codec_of "/home/u/proj/src/tool" = None /\
  extract_tarball (fun r => Ok (ZstdDecoder r))
    (fun r _ g => match r with RawFile _ => Ok g | _ => Err (Other "not a tar stream") end)
    FsExamples.fs_tool "/home/u/proj/src/tool" "/home/u/proj/out"
  = Ok (FsExamples.fs_tool ++ [(["home"; "u"; "proj"; "out"], NDir)]).
Proof.
  split; [vm_compute; reflexivity|].
  rewrite (proj2 (extract_codec_by_suffix (fun r => Ok (ZstdDecoder r))
    (fun r _ g => match r with RawFile _ => Ok g | _ => Err (Other "not a tar stream") end)
    FsExamples.fs_tool "/home/u/proj/src/tool" "/home/u/proj/out")
    ltac:(vm_compute; reflexivity)).
  vm_compute; reflexivity.
Defined.

End ExtractClaims.

Module RegexClaims.
Import HostApi RegexMatch.




End RegexClaims.

Module PathExtras.
Import RPath PathClean PathUtils PathShapes PathFacts.

Lemma starts_with_empty (p : string) : starts_with p "" = true.
Proof. unfold starts_with. simpl components. rewrite iter_after_nil. reflexivity. Qed.

(** Joining a relative path onto [base] keeps [base] as a prefix. *)
Lemma starts_with_join (base rel : string) :
  is_absolute rel = false -> starts_with (join base rel) base = true.
Proof.
  intros Hr. destruct (string_dec base "") as [->|Hb].
  - apply starts_with_empty.
  - unfold starts_with, join. rewrite (components_push base rel Hb Hr).
    rewrite iter_after_app. reflexivity.
Qed.

(** [sanitize_path] fails only with [PathTraversal]: its
    [NotInTargetDir] check can never fire, and it never returns
    [InvalidPath]. *)
Theorem sanitize_path_only_traversal (base p : string) (e : path_error) :
  sanitize_path base p = Err e -> e = PathTraversal.
Proof.
  intros H. unfold sanitize_path, clean in H.
  destruct (clean_shape p) as (rooted & k & names & Hg & Hc).
  rewrite Hc in H. pose proof (names_segs names Hg) as Hs.
  destruct rooted.
  - rewrite <- (map_seg_names names Hg), render_root_segs in H by exact Hs.
    unfold strip_prefix in H.
    rewrite components_root_join, map_seg_names in H by assumption.
    cbn [existsb is_parent_dir orb] in H.
    rewrite existsb_parent_names in H.
    change (components "/") with [RootDir] in H.
    cbn [iter_after] in H. rewrite component_eqb_refl, iter_after_nil in H.
    rewrite <- (map_seg_names names Hg), render_segs in H by exact Hs.
    rewrite starts_with_join in H by (apply join_segs_not_abs; exact Hg).
    discriminate H.
  - destruct k as [|k].
    + destruct names as [|n names'].
      * change (repeat ParentDir 0 ++ map Normal []) with (@nil component) in H.
        cbv beta iota zeta in H.
        replace (existsb is_parent_dir (components ".")) with false in H
          by reflexivity.
        replace (strip_prefix "." "/") with (@None string) in H by reflexivity.
        cbv beta iota in H.
        rewrite starts_with_join in H by reflexivity.
        discriminate H.
      * change (repeat ParentDir 0 ++ map Normal (n :: names'))
          with (Normal n :: map Normal names') in H.
        cbv beta iota in H.
        change (Normal n :: map Normal names')
          with (map Normal (n :: names')) in H.
        rewrite <- (map_seg_names _ Hg), render_segs in H by exact Hs.
        unfold strip_prefix in H.
        rewrite components_join, map_seg_names in H by assumption.
        rewrite existsb_parent_names in H.
        change (components "/") with [RootDir] in H.
        cbn [map iter_after] in H.
        rewrite component_eqb_neq in H by discriminate.
        rewrite starts_with_join in H by (apply join_segs_not_abs; exact Hg).
        discriminate H.
    + destruct (dotdot_segs (S k) names Hg) as [Hds Hdm].
      change (repeat ParentDir (S k) ++ map Normal names)
        with (ParentDir :: (repeat ParentDir k ++ map Normal names)) in H.
      cbv beta iota in H.
      change (ParentDir :: (repeat ParentDir k ++ map Normal names))
        with (repeat ParentDir (S k) ++ map Normal names) in H.
      rewrite <- Hdm, render_segs, components_join, Hdm in H by exact Hds.
      cbn [existsb repeat app is_parent_dir orb] in H.
      injection H as <-. reflexivity.
Qed.

(** Below the root, [clean] keeps the root and a list of names. *)
Lemma clean_fold_rooted (cs : list component) (rns : list string) :
  Forall seg_like cs -> Forall good_name rns ->
  exists rns', Forall good_name rns' /\
    fold_left clean_step cs (map Normal rns ++ [RootDir])
    = map Normal rns' ++ [RootDir].
Proof.
  intros Hf. revert rns.
  induction Hf as [|c cs Hc Hcs IH]; intros rns Hg.
  - exists rns. split; [exact Hg|reflexivity].
  - simpl. destruct Hc as [-> | (n & -> & Hn)].
    + destruct rns as [|m rns'].
      * apply (IH []). constructor.
      * inversion Hg; subst. apply (IH rns'). assumption.
    + apply (IH (n :: rns)). constructor; assumption.
Qed.

Lemma clean_shape_abs (p : string) :
  is_absolute p = true ->
  exists names, Forall good_name names /\
    rev (fold_left clean_step (components p) []) = RootDir :: map Normal names.
Proof.
  intros Ha. destruct p as [|c s]; [discriminate|].
  simpl in Ha.
  assert (Hc : components (String c s) = RootDir :: body (split s))
    by (unfold components; rewrite Ha; reflexivity).
  rewrite Hc. cbn [fold_left]. change (clean_step [] RootDir) with (map Normal [] ++ [RootDir]).
  destruct (clean_fold_rooted (body (split s)) []) as (rns & Hg & E).
  - apply body_seg_like, split_all_nosep.
  - constructor.
  - rewrite E, rev_app_distr, <- map_rev. exists (rev rns).
    split; [apply Forall_rev; exact Hg|reflexivity].
Qed.

(** A request given as an absolute path is never refused: it is taken
    relative to [base], below it come the components of the cleaned
    request after its root, and [..] above that root is dropped by
    [clean], so ["/../../etc/passwd"] names [base/etc/passwd]. *)
Theorem sanitize_path_absolute_accepted (base p : string) :
  base <> "" -> is_absolute p = true ->
  exists q, sanitize_path base p = Ok q /\
    components q = components base ++ tl (components (clean p)).
Proof.
  intros Hb Ha. destruct (clean_shape_abs p Ha) as (names & Hg & Hc).
  pose proof (names_segs names Hg) as Hs.
  assert (Hcl : clean p = String sep (join_segs names)).
  { unfold clean. rewrite Hc.
    rewrite <- (map_seg_names names Hg), render_root_segs by exact Hs.
    reflexivity. }
  unfold sanitize_path. rewrite Hcl.
  unfold strip_prefix.
  rewrite components_root_join, map_seg_names by assumption.
  cbn [existsb is_parent_dir orb].
  rewrite existsb_parent_names.
  change (components "/") with [RootDir].
  cbn [iter_after]. rewrite component_eqb_refl, iter_after_nil.
  rewrite <- (map_seg_names names Hg), render_segs by exact Hs.
  rewrite starts_with_join by (apply join_segs_not_abs; exact Hg).
  cbn [negb]. eexists. split; [reflexivity|].
  rewrite components_join_names, map_seg_names by assumption. reflexivity.
Qed.

Lemma sanitize_path_absolute_accepted_witness :
  sanitize_path "/home/u/proj/src" "/../../etc/passwd"
    = Ok "/home/u/proj/src/etc/passwd" /\
  exists q, sanitize_path "/home/u/proj/src" "/../../etc/passwd" = Ok q /\
    components q = components "/home/u/proj/src"
                   ++ tl (components (clean "/../../etc/passwd")).
Proof.
  split; [vm_compute; reflexivity|].
  apply sanitize_path_absolute_accepted; [discriminate|reflexivity].
Defined.

Lemma sanitize_path_only_traversal_witness :
  sanitize_path "/home/u/proj/src" "a/../../b" = Err PathTraversal /\
  PathTraversal = PathTraversal.
Proof.
  split; [vm_compute; reflexivity|].
  apply (sanitize_path_only_traversal "/home/u/proj/src" "a/../../b").
  vm_compute. reflexivity.
Defined.

End PathExtras.

Module ManifestExtras.
Import RPath FsModel Manifest.

Lemma parent_pkg : parent "pkg" = Some "".
Proof. vm_compute. reflexivity. Qed.

(** What [visit_dirs] may add to [paths]: each new entry names, relative
    to the parent of ["pkg"], a path that is a file or a symlink. *)
Definition listed (f : fs) (paths l : list string) : Prop :=
  exists ext, l = paths ++ ext /\
    Forall (fun x => exists p, (is_file f p || is_symlink f p) = true /\
                               strip_prefix p "" = Some x) ext.

Lemma listed_refl (f : fs) (a : list string) : listed f a a.
Proof. exists []. split; [symmetry; apply app_nil_r | constructor]. Qed.

Lemma listed_trans (f : fs) (a b c : list string) :
  listed f a b -> listed f b c -> listed f a c.
Proof.
  intros [e1 [-> H1]] [e2 [-> H2]]. exists (e1 ++ e2).
  split; [symmetry; apply app_assoc | apply Forall_app; split; assumption].
Qed.

Lemma fold_listed {E : Type}
  (step : result (list string) E -> string -> result (list string) E)
  (R : list string -> list string -> Prop) :
  (forall a b c, R a b -> R b c -> R a c) ->
  (forall e x, step (Err e) x = Err e) ->
  (forall ps x l, step (Ok ps) x = Ok l -> R ps l) ->
  forall xs acc p0, (forall l, acc = Ok l -> R p0 l) ->
  forall l, fold_left step xs acc = Ok l -> R p0 l.
Proof.
  intros Ht He Hs xs. induction xs as [|x xs IH]; intros acc p0 Ha l; cbn [fold_left].
  - apply Ha.
  - apply IH. intros l' Hl. destruct acc as [ps|e].
    + exact (Ht _ _ _ (Ha ps eq_refl) (Hs _ _ _ Hl)).
    + rewrite He in Hl. discriminate Hl.
Qed.

(** [visit_dirs] only appends to the list it is given, and every entry it
    appends is the path of a file or of a symlink: a plain directory is
    never listed. *)
Theorem visit_dirs_appends_files (fuel : nat) (f : fs) (dir : string)
  (paths l : list string) :
  visit_dirs fuel f dir paths = Ok l -> listed f paths l.
Proof.
  revert dir paths l. induction fuel as [|fuel IH]; intros dir paths l H;
    cbn [visit_dirs] in H; [discriminate H|].
  destruct (is_dir f dir); [|injection H as <-; apply listed_refl].
  destruct (read_dir f dir) as [entries|e]; [|discriminate H].
  revert l H. apply (fold_listed _ (listed f) (listed_trans f)).
  - reflexivity.
  - intros ps x l' E. rewrite parent_pkg in E.
    assert (Hx : listed f ps
              (if is_file f x || is_symlink f x then
                 match strip_prefix x "" with
                 | Some rel_path => ps ++ [rel_path]
                 | None => ps
                 end
               else ps)).
    { destruct (is_file f x || is_symlink f x) eqn:Ef; [|apply listed_refl].
      destruct (strip_prefix x "") as [rel|] eqn:Es; [|apply listed_refl].
      exists [rel]. split; [reflexivity|]. constructor; [|constructor].
      exists x. split; assumption. }
    destruct (is_dir f x).
    + exact (listed_trans f _ _ _ Hx (IH _ _ _ E)).
    + injection E as <-. exact Hx.
  - intros l' E. injection E as <-. apply listed_refl.
Qed.

Lemma visit_dirs_appends_files_witness :
  listed FsExamples.fs_tool []
    (match visit_dirs 8 FsExamples.fs_tool "/home/u/proj" [] with
     | Ok l => l
     | Err _ => []
     end).
Proof.
  apply (visit_dirs_appends_files 8 FsExamples.fs_tool "/home/u/proj").
  vm_compute. reflexivity.
Defined.

End ManifestExtras.

Module JsonExtras.
Import JsonLua.

Lemma key_eqb_eq (a b : key) : key_eqb a b = true <-> a = b.
Proof.
  destruct a as [x|x], b as [y|y]; cbn [key_eqb];
    try (split; intros H; discriminate H).
  - rewrite String.eqb_eq. split; [intros ->|intros H; injection H]; auto.
  - rewrite Z.eqb_eq. split; [intros ->|intros H; injection H]; auto.
Qed.

Lemma key_eqb_refl (a : key) : key_eqb a a = true.
Proof. apply key_eqb_eq. reflexivity. Qed.

Lemma find_app {A : Type} (p : A -> bool) (l1 l2 : list A) :
  find p (l1 ++ l2) = match find p l1 with Some x => Some x | None => find p l2 end.
Proof.
  induction l1 as [|x l1 IH]; cbn [find app]; [reflexivity|].
  destruct (p x); [reflexivity|exact IH].
Qed.

Lemma find_filter_same (t : table) (k : key) :
  find (fun '(k', _) => key_eqb k k')
       (filter (fun '(k', _) => negb (key_eqb k k')) t) = None.
Proof.
  induction t as [|[k0 v0] t IH]; cbn [filter find]; [reflexivity|].
  destruct (key_eqb k k0) eqn:E; cbn [negb find]; [exact IH|].
  rewrite E. exact IH.
Qed.

Lemma find_filter_other (t : table) (k k' : key) :
  key_eqb k' k = false ->
  find (fun '(k0, _) => key_eqb k' k0)
       (filter (fun '(k0, _) => negb (key_eqb k k0)) t)
  = find (fun '(k0, _) => key_eqb k' k0) t.
Proof.
  intros Hk. induction t as [|[k0 v0] t IH]; cbn [filter find]; [reflexivity|].
  destruct (key_eqb k k0) eqn:E; cbn [negb find].
  - apply key_eqb_eq in E. subst k0. rewrite Hk. exact IH.
  - destruct (key_eqb k' k0); [reflexivity|exact IH].
Qed.

(** Reading a key after [Table::set]. *)
Lemma get_set (t : table) (k : key) (v : value) (k' : key) :
  table_get (table_set t k v) k' = if key_eqb k' k then v else table_get t k'.
Proof.
  unfold table_get, table_set.
  destruct (key_eqb k' k) eqn:E.
  - apply key_eqb_eq in E. subst k'.
    destruct v; try (rewrite find_app, find_filter_same; cbn [find];
                     rewrite key_eqb_refl; reflexivity).
    rewrite find_filter_same. reflexivity.
  - destruct v; try (rewrite find_app, find_filter_other by exact E; cbn [find];
                     rewrite E; destruct (find _ t) as [[? ?]|]; reflexivity).
    rewrite find_filter_other by exact E. reflexivity.
Qed.

Section Conv.
Variable conv : json -> value.

Fixpoint set_fields (m : list (string * json)) (t : table) : table :=
  match m with
  | [] => t
  | (k, v) :: r => set_fields r (table_set t (KStr k) (conv v))
  end.

Fixpoint set_items (a : list json) (i : nat) (t : table) : table :=
  match a with
  | [] => t
  | v :: r => set_items r (S i) (table_set t (KInt (Z.of_nat (i + 1))) (conv v))
  end.

Lemma field_cons (k k0 : string) (v0 : json) (r : list (string * json)) :
  field ((k0, v0) :: r) k = if String.eqb k k0 then Some v0 else field r k.
Proof. unfold field. cbn [find]. destruct (String.eqb k k0); reflexivity. Qed.

Lemma field_notin (r : list (string * json)) (k : string) :
  ~ In k (map fst r) -> field r k = None.
Proof.
  induction r as [|[k0 v0] r IH]; intros Hn; [reflexivity|].
  rewrite field_cons. cbn [map fst In] in Hn.
  destruct (String.eqb k k0) eqn:E.
  - apply String.eqb_eq in E. subst. tauto.
  - apply IH. tauto.
Qed.

Lemma set_fields_str (m : list (string * json)) (t : table) (k : string) :
  NoDup (map fst m) ->
  table_get (set_fields m t) (KStr k)
  = match field m k with Some v => conv v | None => table_get t (KStr k) end.
Proof.
  revert t. induction m as [|[k0 v0] r IH]; intros t Hd; [reflexivity|].
  cbn [map fst] in Hd. inversion Hd as [|? ? Hn Hd']; subst.
  cbn [set_fields]. rewrite IH by exact Hd'. rewrite field_cons.
  destruct (String.eqb k k0) eqn:E.
  - apply String.eqb_eq in E. subst k0. rewrite field_notin by exact Hn.
    rewrite get_set, key_eqb_refl. reflexivity.
  - destruct (field r k); [reflexivity|].
    rewrite get_set. cbn [key_eqb]. rewrite E. reflexivity.
Qed.

Lemma set_fields_int (m : list (string * json)) (t : table) (z : Z) :
  table_get (set_fields m t) (KInt z) = table_get t (KInt z).
Proof.
  revert t. induction m as [|[k0 v0] r IH]; intros t; [reflexivity|].
  cbn [set_fields]. rewrite IH, get_set. reflexivity.
Qed.

Lemma set_items_str (a : list json) (n : nat) (t : table) (s : string) :
  table_get (set_items a n t) (KStr s) = table_get t (KStr s).
Proof.
  revert n t. induction a as [|v r IH]; intros n t; [reflexivity|].
  cbn [set_items]. rewrite IH, get_set. reflexivity.
Qed.

Lemma set_items_low (a : list json) (n : nat) (t : table) (z : Z) :
  (z <= Z.of_nat n)%Z ->
  table_get (set_items a n t) (KInt z) = table_get t (KInt z).
Proof.
  revert n t. induction a as [|v r IH]; intros n t Hz; [reflexivity|].
  cbn [set_items]. rewrite IH by lia. rewrite get_set. cbn [key_eqb].
  replace (Z.eqb z (Z.of_nat (n + 1))) with false by (symmetry; apply Z.eqb_neq; lia).
  reflexivity.
Qed.

Lemma set_items_at (a : list json) (n : nat) (t : table) (m : nat) :
  table_get (set_items a n t) (KInt (Z.of_nat (S (n + m))))
  = match nth_error a m with
    | Some v => conv v
    | None => table_get t (KInt (Z.of_nat (S (n + m))))
    end.
Proof.
  revert n t m. induction a as [|v r IH]; intros n t m;
    [destruct m; reflexivity|].
  cbn [set_items]. destruct m as [|m].
  - rewrite set_items_low by lia. rewrite get_set. cbn [key_eqb nth_error].
    replace (Z.eqb (Z.of_nat (S (n + 0))) (Z.of_nat (n + 1))) with true
      by (symmetry; apply Z.eqb_eq; lia).
    reflexivity.
  - replace (S (n + S m)) with (S (S n + m)) by lia.
    rewrite IH. cbn [nth_error]. destruct (nth_error r m); [reflexivity|].
    rewrite get_set. cbn [key_eqb].
    replace (Z.eqb (Z.of_nat (S (S n + m))) (Z.of_nat (n + 1))) with false
      by (symmetry; apply Z.eqb_neq; lia).
    reflexivity.
Qed.
End Conv.

Lemma to_lua_object (u i : Z -> PrimFloat.float) (m : list (string * json)) :
  json_to_lua_table u i (JObject m) = VTable (set_fields (json_to_lua_table u i) m []).
Proof. reflexivity. Qed.

Lemma to_lua_array (u i : Z -> PrimFloat.float) (a : list json) :
  json_to_lua_table u i (JArray a) = VTable (set_items (json_to_lua_table u i) a 0 []).
Proof. reflexivity. Qed.

(** A decoded JSON object (whose keys serde_json keeps unique) reads back
    field by field: [t.k] is the conversion of the field [k], [nil] when
    the object has no such field or it is [null], and no integer key is
    set. *)
Theorem json_object_fields (u i : Z -> PrimFloat.float) (m : list (string * json)) :
  NoDup (map fst m) ->
  (forall k, index (json_to_lua_table u i (JObject m)) (KStr k)
             = match field m k with
               | Some v => json_to_lua_table u i v
               | None => VNil
               end) /\
  (forall z, index (json_to_lua_table u i (JObject m)) (KInt z) = VNil).
Proof.
  intros Hd. rewrite to_lua_object. cbn [index]. split.
  - intros k. rewrite set_fields_str by exact Hd. destruct (field m k); reflexivity.
  - intros z. rewrite set_fields_int. reflexivity.
Qed.

Lemma json_object_fields_witness :
  NoDup (map fst [("name", JString "hello"); ("license", JNull)]) /\
  (forall k, index (json_to_lua_table (fun _ => PrimFloat.zero) (fun _ => PrimFloat.zero)
                      (JObject [("name", JString "hello"); ("license", JNull)])) (KStr k)
             = match field [("name", JString "hello"); ("license", JNull)] k with
               | Some v => json_to_lua_table (fun _ => PrimFloat.zero)
                             (fun _ => PrimFloat.zero) v
               | None => VNil
               end) /\
  (forall z, index (json_to_lua_table (fun _ => PrimFloat.zero) (fun _ => PrimFloat.zero)
                      (JObject [("name", JString "hello"); ("license", JNull)])) (KInt z)
             = VNil).
Proof.
  assert (Hd : NoDup (map fst [("name", JString "hello"); ("license", JNull)])).
  { cbn. constructor; [cbn; intros [H|[]]; discriminate H|].
    constructor; [intros []|constructor]. }
  split; [exact Hd|].
  apply (json_object_fields (fun _ => PrimFloat.zero) (fun _ => PrimFloat.zero)
           [("name", JString "hello"); ("license", JNull)] Hd).
Defined.

(** A decoded JSON array reads back at [t[1]], [t[2]], ...: [t[n+1]] is the
    conversion of element [n], [nil] past the end or where the element
    is [null]; no key below 1 and no string key is set. *)
Theorem json_array_items (u i : Z -> PrimFloat.float) (a : list json) :
  (forall n, index (json_to_lua_table u i (JArray a)) (KInt (Z.of_nat (S n)))
             = match nth_error a n with
               | Some v => json_to_lua_table u i v
               | None => VNil
               end) /\
  (forall z, (z <= 0)%Z -> index (json_to_lua_table u i (JArray a)) (KInt z) = VNil) /\
  (forall s, index (json_to_lua_table u i (JArray a)) (KStr s) = VNil).
Proof.
  rewrite to_lua_array. cbn [index]. split; [|split].
  - intros n. rewrite (set_items_at _ a 0 [] n).
    destruct (nth_error a n); reflexivity.
  - intros z Hz. rewrite set_items_low by (cbn; lia). reflexivity.
  - intros s. rewrite set_items_str. reflexivity.
Qed.

End JsonExtras.
